(** * go-tcp-file-stream: the length-prefixed framing of [main.go]

    A shallow embedding of [FileServer.start], [FileServer.read] and [send]
    from [src/main.go], together with the parts of Go's standard library
    they call ([encoding/binary], [io.ReadFull], [io.CopyN], [bytes.Buffer],
    [net.Conn] as an [io.Reader] and an [io.Writer]).

    Conventions.
    - A Go [int64] is a [Z] in [-2^63, 2^63); a [uint64] is a [Z] in
      [0, 2^64).  Conversions between them are written out ([to_int64],
      [to_uint64]).
    - A byte is [Init.Byte.byte]; a byte slice is a [list byte].
    - A connection is a reliable ordered byte stream.  [io.ReadFull] and
      [io.CopyN] loop over the underlying [Read] calls until they have the
      requested number of bytes or the stream ends, so the way TCP cuts the
      stream into segments is invisible to the program; the reading side is
      therefore the bytes still to arrive together with the way the stream
      ends.
    - A call that waits forever for bytes that never come does not return:
      [io.Waiting] for a copy, [None] in the [ret] field of a read.  The
      [for] loops of the program are run with a bound on the number of
      iterations; a loop that is still iterating when the bound is reached
      reports [Running]. *)

From Stdlib Require Import String.
From Stdlib Require Import ZArith List Lia Bool.
From coqutil Require Import Byte Word.LittleEndianList.
Import ListNotations.
Local Open Scope Z_scope.

(* ===================================================================== *)
(** ** Go values *)

(** Go's [error] values that the program can tell apart: [io.EOF] is the
    only one it compares against. *)
Inductive error : Type :=
| EOF
| ErrUnexpectedEOF
| ErrShortWrite
| ErrOther (msg : string).

(** [err == io.EOF] *)
Definition is_EOF (e : error) : bool :=
  match e with
  | EOF => true
  | _ => false
  end.

(** [int64(v)]: the two's complement reading of the low 64 bits. *)
Definition to_int64 (v : Z) : Z := (v + 2 ^ 63) mod 2 ^ 64 - 2 ^ 63.

(** [uint64(v)] *)
Definition to_uint64 (v : Z) : Z := v mod 2 ^ 64.

(* ===================================================================== *)
(** ** encoding/binary, little endian *)

Module binary.

(** [b[i]] widened to [uint64]. *)
Definition at_ (b : list byte) (i : nat) : Z := byte.unsigned (nth i b Byte.x00).

(** [binary.LittleEndian.Uint64]:
    [uint64(b[0]) | uint64(b[1])<<8 | ... | uint64(b[7])<<56]. *)
Definition Uint64 (b : list byte) : Z :=
  Z.lor (Z.lor (Z.lor (Z.lor (Z.lor (Z.lor (Z.lor
    (at_ b 0)
    (Z.shiftl (at_ b 1) 8))
    (Z.shiftl (at_ b 2) 16))
    (Z.shiftl (at_ b 3) 24))
    (Z.shiftl (at_ b 4) 32))
    (Z.shiftl (at_ b 5) 40))
    (Z.shiftl (at_ b 6) 48))
    (Z.shiftl (at_ b 7) 56).

(** [binary.LittleEndian.PutUint64]: [b[i] = byte(v >> (8*i))]. *)
Definition PutUint64 (v : Z) : list byte :=
  [ byte.of_Z v;
    byte.of_Z (Z.shiftr v 8);
    byte.of_Z (Z.shiftr v 16);
    byte.of_Z (Z.shiftr v 24);
    byte.of_Z (Z.shiftr v 32);
    byte.of_Z (Z.shiftr v 40);
    byte.of_Z (Z.shiftr v 48);
    byte.of_Z (Z.shiftr v 56) ].

End binary.

(** The value an 8-byte prefix denotes when it is read, as the wire format
    says, as an unsigned little-endian integer: byte [i] has weight
    [256^i]. *)
Fixpoint le_unsigned (b : list byte) : Z :=
  match b with
  | [] => 0
  | x :: rest => byte.unsigned x + 256 * le_unsigned rest
  end.

(* ===================================================================== *)
(** ** io.Reader and io.Writer *)

(** The reading side of a stream ([net.Conn], [bytes.Reader],
    [rand.Reader]): the bytes still to come, in order, and what a [Read]
    yields once they are used up: [Some EOF] when the peer has closed,
    [Some e] when the stream fails with [e], [None] when the peer stays
    connected and silent, so that the [Read] never returns. *)
Record Reader : Type := mkReader {
  pending : list byte;
  tail : option error
}.

(** [bytes.NewReader(b)] *)
Definition NewReader (b : list byte) : Reader :=
  {| pending := b; tail := Some EOF |}.

(** The reader after its first [n] bytes were consumed. *)
Definition advance (r : Reader) (n : nat) : Reader :=
  {| pending := skipn n (pending r); tail := tail r |}.

(** [io.Writer]: [write w p] is the writer afterwards, the number of bytes
    of [p] it took and the error, if any. *)
Class Writer (W : Type) : Type := {
  write : W -> list byte -> W * nat * option error
}.

(** [bytes.Buffer]: its contents; a write appends and cannot fail. *)
Definition Buffer : Type := list byte.

#[export] Instance Buffer_Writer : Writer Buffer := {
  write b p := (b ++ p, length p, None)
}.

(** The writing side of a [net.Conn]: the bytes handed to the network so
    far, how many more the connection takes before it breaks ([None]: it
    does not break) and the error a write reports once it has broken. *)
Record Wire : Type := mkWire {
  sent : list byte;
  room : option nat;
  broken : error
}.

Definition wire_write (w : Wire) (p : list byte) : Wire * nat * option error :=
  match room w with
  | None => ({| sent := sent w ++ p; room := None; broken := broken w |}, length p, None)
  | Some k =>
      if (length p <=? k)%nat
      then ({| sent := sent w ++ p; room := Some (k - length p)%nat; broken := broken w |},
            length p, None)
      else ({| sent := sent w ++ firstn k p; room := Some 0%nat; broken := broken w |},
            k, Some (broken w))
  end.

#[export] Instance Wire_Writer : Writer Wire := {
  write := wire_write
}.

(* ===================================================================== *)
(** ** package io *)

Module io.

(** The state after a call and, when the call returns, what it returns. *)
Record full : Type := mkFull {
  f_bytes : list byte;            (* the bytes placed in the slice *)
  f_src : Reader;
  f_ret : option (option error)   (* [None]: the call never returns *)
}.

(** [io.ReadFull(r, buf)] with [len(buf) = n]: reads exactly [n] bytes.
    The error is [EOF] only if no byte was read, and [ErrUnexpectedEOF]
    if the stream closed after some but not all of them. *)
Definition ReadFull (r : Reader) (n : nat) : full :=
  if (n <=? length (pending r))%nat
  then {| f_bytes := firstn n (pending r); f_src := advance r n; f_ret := Some None |}
  else
    {| f_bytes := pending r;
       f_src := advance r n;
       f_ret :=
         match tail r with
         | None => None
         | Some e =>
             if is_EOF e
             then Some (Some (match pending r with [] => EOF | _ => ErrUnexpectedEOF end))
             else Some (Some e)
         end |}.

(** How a copy stands: it returned [(written, err)], or it waits forever
    for bytes that never come, having moved [written] bytes so far. *)
Inductive result : Type :=
| Done (written : Z) (err : option error)
| Waiting (written : Z).

Record copied (W : Type) : Type := mkCopied {
  c_dst : W;
  c_src : Reader;
  c_ret : result
}.
Arguments mkCopied {W}.
Arguments c_dst {W}.
Arguments c_src {W}.
Arguments c_ret {W}.

(** [io.Copy(dst, io.LimitReader(src, n))].  The limited reader reports
    [EOF] without touching [src] once its budget [n] is used up (at once
    when [n <= 0]); [Copy] moves what it reads to [dst], stops at the
    first error, and does not report an [EOF] of its source as an error. *)
Definition CopyLimited {W} `{Writer W} (dst : W) (src : Reader) (n : Z) : copied W :=
  if n <=? 0
  then {| c_dst := dst; c_src := src; c_ret := Done 0 None |}
  else
    let chunk := firstn (Z.to_nat n) (pending src) in
    let src' := advance src (Z.to_nat n) in
    let '(dst', nw, ew) := write dst chunk in
    {| c_dst := dst';
       c_src := src';
       c_ret :=
         match ew with
         | Some e => Done (Z.of_nat nw) (Some e)
         | None =>
             if (nw <? length chunk)%nat then Done (Z.of_nat nw) (Some ErrShortWrite)
             else if Z.of_nat (length chunk) =? n then Done (Z.of_nat nw) None
             else
               match tail src with
               | None => Waiting (Z.of_nat nw)
               | Some e =>
                   if is_EOF e then Done (Z.of_nat nw) None
                   else Done (Z.of_nat nw) (Some e)
               end
         end |}.

(** [io.CopyN(dst, src, n)]:
<<
    written, err = Copy(dst, LimitReader(src, n))
    if written == n { return n, nil }
    if written < n && err == nil { err = EOF }
    return
>> *)
Definition CopyN {W} `{Writer W} (dst : W) (src : Reader) (n : Z) : copied W :=
  let c := CopyLimited dst src n in
  {| c_dst := c_dst c;
     c_src := c_src c;
     c_ret :=
       match c_ret c with
       | Waiting written => Waiting written
       | Done written err =>
           if written =? n then Done n None
           else if (written <? n) && (match err with None => true | Some _ => false end)
           then Done written (Some EOF)
           else Done written err
       end |}.

End io.

(** [binary.Read(r, binary.LittleEndian, &data)] with [data] an [int64]:
<<
    bs := make([]byte, 8)
    if _, err := io.ReadFull(r, bs); err != nil { return err }
    *data = int64(order.Uint64(bs))
    return nil
>>
    [b_data] is the variable afterwards: it is left as it was when the
    eight bytes could not be read. *)
Record bread : Type := mkBread {
  b_data : Z;
  b_src : Reader;
  b_ret : option (option error)
}.

Definition binary_Read (r : Reader) (data : Z) : bread :=
  let f := io.ReadFull r 8 in
  {| b_data :=
       match io.f_ret f with
       | Some None => to_int64 (binary.Uint64 (io.f_bytes f))
       | _ => data
       end;
     b_src := io.f_src f;
     b_ret := io.f_ret f |}.

(** [binary.Write(w, binary.LittleEndian, v)] with [v] an [int64]: the
    eight bytes of [uint64(v)] in one [Write]; its error is the result. *)
Definition binary_Write {W} `{Writer W} (w : W) (v : Z) : W * option error :=
  let '(w', _, err) := write w (binary.PutUint64 (to_uint64 v)) in
  (w', err).

(* ===================================================================== *)
(** ** main.go *)

(** What the program prints on standard output. *)
Inductive output : Type :=
| PrintBytes (b : list byte)       (* [fmt.Println(buf.Bytes())] *)
| PrintReceived (n : Z)            (* [fmt.Printf("Received %d bytes\n", reqLen)] *)
| PrintSent (n : Z)                (* [fmt.Printf("Sent %d bytes\n", n)] *)
| PrintAcceptError (e : error).    (* [fmt.Println("Error accepting: ", err.Error())] *)

(** *** FileServer.read *)

(** The variables of [read] and the output so far. *)
Record rstate : Type := mkRstate {
  size : Z;
  buf : Buffer;
  conn : Reader;
  out : list output
}.

(** How a run of [read] stands: still iterating, waiting in a read that
    never returns, returned after the [break], or dead with the whole
    process in [log.Fatal].  [reqLen] is the count of the last [CopyN],
    [got] what a waiting [CopyN] has put into [buf] so far. *)
Inductive status : Type :=
| Running
| Blocked (got : Z)
| Returned (reqLen : Z)
| Fatal (reqLen : Z) (e : error).

(** The [for] loop of [read], at most [fuel] iterations of it:
<<
    for {
        reqLen, err := io.CopyN(buf, conn, size)
        if err != nil {
            if err == io.EOF { break }
            log.Fatal(err)
        }
        fmt.Println(buf.Bytes())
        fmt.Printf("Received %d bytes\n", reqLen)
    }
>> *)
Fixpoint read_loop (fuel : nat) (st : rstate) : status * rstate :=
  match fuel with
  | O => (Running, st)
  | S fuel' =>
      let c := io.CopyN (buf st) (conn st) (size st) in
      let st' := {| size := size st; buf := io.c_dst c; conn := io.c_src c; out := out st |} in
      match io.c_ret c with
      | io.Waiting got => (Blocked got, st')
      | io.Done reqLen (Some err) =>
          if is_EOF err then (Returned reqLen, st') else (Fatal reqLen err, st')
      | io.Done reqLen None =>
          read_loop fuel'
            {| size := size st;
               buf := io.c_dst c;
               conn := io.c_src c;
               out := out st ++ [PrintBytes (io.c_dst c); PrintReceived reqLen] |}
      end
  end.

(** [func (fs *FileServer) read(conn net.Conn)]:
<<
    buf := new(bytes.Buffer)
    var size int64
    binary.Read(conn, binary.LittleEndian, &size)
    for { ... }
>>
    The result of [binary.Read] is dropped. *)
Definition read (c : Reader) (fuel : nat) : status * rstate :=
  let b := binary_Read c 0 in
  let st := {| size := b_data b; buf := []; conn := b_src b; out := [] |} in
  match b_ret b with
  | None => (Blocked 0, st)
  | Some _ => read_loop fuel st
  end.

(** The counts that [read] printed, in order. *)
Fixpoint reported (o : list output) : list Z :=
  match o with
  | [] => []
  | PrintReceived n :: rest => n :: reported rest
  | _ :: rest => reported rest
  end.

(** The buffer contents that [read] printed, in order. *)
Fixpoint surfaced (o : list output) : list (list byte) :=
  match o with
  | [] => []
  | PrintBytes b :: rest => b :: surfaced rest
  | _ :: rest => surfaced rest
  end.

Definition sum (l : list Z) : Z := fold_right Z.add 0 l.

(** The number of bytes the last [CopyN] of a run put into the buffer
    without the count being printed. *)
Definition unreported (s : status) : Z :=
  match s with
  | Returned n => n
  | Fatal n _ => n
  | Blocked n => n
  | Running => 0
  end.

(** *** send *)

(** What a call of [send] comes to. *)
Inductive sresult : Type :=
| SendPanics                        (* [make([]byte, size)] with [size < 0] *)
| SendBlocks                        (* a read that never returns *)
| SendReturns (err : option error).

Record sstate : Type := mkSstate {
  s_result : sresult;
  s_file : list byte;
  s_wire : option Wire;       (* the connection, once dialled *)
  s_out : list output
}.

(** [func send(size int) error], on a 64-bit platform ([int] is [int64]).
    [rnd] is [rand.Reader], [dial] the outcome of [net.Dial("tcp", ":3000")].
<<
    file := make([]byte, size)
    _, err := io.ReadFull(rand.Reader, file)
    if err != nil { return err }
    conn, err := net.Dial("tcp", ":3000")
    if err != nil { return err }
    binary.Write(conn, binary.LittleEndian, int64(size))
    n, err := io.CopyN(conn, bytes.NewReader(file), int64(size))
    if err != nil { return err }
    fmt.Printf("Sent %d bytes\n", n)
    return nil
>>
    The result of [binary.Write] is dropped, and the connection is not
    closed. *)
Definition send (rnd : Reader) (dial : Wire + error) (sz : Z) : sstate :=
  if sz <? 0
  then {| s_result := SendPanics; s_file := []; s_wire := None; s_out := [] |}
  else
    let f := io.ReadFull rnd (Z.to_nat sz) in
    let file := io.f_bytes f in
    match io.f_ret f with
    | None => {| s_result := SendBlocks; s_file := file; s_wire := None; s_out := [] |}
    | Some (Some err) =>
        {| s_result := SendReturns (Some err); s_file := file; s_wire := None; s_out := [] |}
    | Some None =>
        match dial with
        | inr err =>
            {| s_result := SendReturns (Some err); s_file := file; s_wire := None; s_out := [] |}
        | inl conn0 =>
            let '(conn1, _) := binary_Write conn0 (to_int64 sz) in
            let c := io.CopyN conn1 (NewReader file) (to_int64 sz) in
            match io.c_ret c with
            | io.Waiting _ =>
                {| s_result := SendBlocks; s_file := file;
                   s_wire := Some (io.c_dst c); s_out := [] |}
            | io.Done n (Some err) =>
                {| s_result := SendReturns (Some err); s_file := file;
                   s_wire := Some (io.c_dst c); s_out := [] |}
            | io.Done n None =>
                {| s_result := SendReturns None; s_file := file;
                   s_wire := Some (io.c_dst c); s_out := [PrintSent n] |}
            end
        end
    end.

(** What the receiver's end of the connection sees of a wire once the
    sending side is closed: the bytes sent, then end of stream. *)
Definition delivered (w : Wire) : Reader := NewReader (sent w).

(** *** FileServer.start *)

(** What [net.Listen] and each [listener.Accept] come to. *)
Inductive accepted : Type :=
| AcceptConn (c : Reader)
| AcceptErr (e : error).

(** What the accept loop does, in order. *)
Inductive action : Type :=
| Println (o : output)
| GoRead (c : Reader).             (* [go fs.read(conn)] *)

(** The [for] loop of [start] over the outcomes of the successive
    [listener.Accept] calls:
<<
    for {
        conn, err := listener.Accept()
        if err != nil {
            fmt.Println("Error accepting: ", err.Error())
            continue
        }
        go fs.read(conn)
    }
>> *)
Fixpoint accept_loop (accepts : list accepted) : list action :=
  match accepts with
  | [] => []
  | AcceptErr e :: rest => Println (PrintAcceptError e) :: accept_loop rest
  | AcceptConn c :: rest => GoRead c :: accept_loop rest
  end.

(** [func (fs *FileServer) start() error]: [listen] is the error of
    [net.Listen], if any.  The result is what [start] returns ([None]: it
    does not return; when the outcomes run out it waits in [Accept]) and
    what it did. *)
Definition start (listen : option error) (accepts : list accepted)
  : option error * list action :=
  match listen with
  | Some err => (Some err, [])
  | None => (None, accept_loop accepts)
  end.

(** The process as a whole, with every handler run (for at most [fuel]
    iterations) as soon as it is started: [log.Fatal] in a handler is
    [os.Exit(1)], after which nothing else happens.  The result is the exit
    status, if the process has exited, and the connections that were
    handed to a handler. *)
Fixpoint serve (fuel : nat) (acts : list action) : option Z * list Reader :=
  match acts with
  | [] => (None, [])
  | Println _ :: rest => serve fuel rest
  | GoRead c :: rest =>
      match fst (read c fuel) with
      | Fatal _ _ => (Some 1, [c])
      | _ => let '(code, served) := serve fuel rest in (code, c :: served)
      end
  end.

(* ===================================================================== *)
(** ** The loop of [read], iteration by iteration *)

(** The state after an iteration in which [CopyN] returned without error:
    the buffer has the next [size] bytes of the stream, and both prints
    have happened. *)
Definition iterate (st : rstate) : rstate :=
  let b := buf st ++ firstn (Z.to_nat (size st)) (pending (conn st)) in
  {| size := size st;
     buf := b;
     conn := advance (conn st) (Z.to_nat (size st));
     out := out st ++ [PrintBytes b; PrintReceived (Z.max 0 (size st))] |}.

(** The state after an iteration in which the stream ran out: the buffer
    has what was left of it, and nothing is printed. *)
Definition drain (st : rstate) : rstate :=
  {| size := size st;
     buf := buf st ++ pending (conn st);
     conn := advance (conn st) (Z.to_nat (size st));
     out := out st |}.

(** How the loop leaves an iteration in which the stream ran out after
    [n] more bytes, by the way the stream ends. *)
Definition stop (tl : option error) (n : Z) : status :=
  match tl with
  | None => Blocked n
  | Some e => if is_EOF e then Returned n else Fatal n e
  end.

(** What [k] iterations print when each of them obtains nothing. *)
Definition idle (b : list byte) (k : nat) : list output :=
  concat (repeat [PrintBytes b; PrintReceived 0] k).

(** An output of [read] in which every printed count is the number of
    bytes by which the printed buffer grew in that iteration, starting
    from a buffer of [base] bytes. *)
Fixpoint counted (base : Z) (o : list output) : Prop :=
  match o with
  | [] => True
  | PrintBytes b :: PrintReceived n :: rest =>
      Z.of_nat (length b) = base + n /\ counted (base + n) rest
  | _ => False
  end.

(* ===================================================================== *)
(** ** What a connection takes of a write *)

(** The part of [p] that a connection with room [r] takes. *)
Definition taken (r : option nat) (p : list byte) : list byte :=
  match r with
  | None => p
  | Some k => firstn k p
  end.

(** Whether a connection with room [r] takes all of [p]. *)
Definition fits (r : option nat) (p : list byte) : bool :=
  match r with
  | None => true
  | Some k => (length p <=? k)%nat
  end.

(** The room left after a write of [n] bytes was attempted. *)
Definition room_after (r : option nat) (n : nat) : option nat :=
  option_map (fun k => (k - n)%nat) r.

(* ===================================================================== *)
(** ** The rest of the program *)


(** The connections among the outcomes of [Accept], in order. *)
Fixpoint connections (accepts : list accepted) : list Reader :=
  match accepts with
  | [] => []
  | AcceptConn c :: rest => c :: connections rest
  | AcceptErr _ :: rest => connections rest
  end.

(** The connections for which a handler was started, in order. *)
Fixpoint handlers (acts : list action) : list Reader :=
  match acts with
  | [] => []
  | GoRead c :: rest => c :: handlers rest
  | Println _ :: rest => handlers rest
  end.

(** [func main()], as far as the exit of the process goes:
<<
    go func() { time.Sleep(5 * time.Second); send(1024 * 1024 * 10) }()
    server := &FileServer{...}
    log.Fatal(server.start())
>>
    [log.Fatal] is reached when [start] returns, and exits with status 1.
    The goroutine drops the result of [send], so it has no part in the
    exit status; the connection it dials reaches the server as one of the
    accepted ones.  The result is the exit status, [None] while the
    process runs. *)
Definition main (listen : option error) (accepts : list accepted) (fuel : nat)
  : option Z :=
  match start listen accepts with
  | (Some _, _) => Some 1
  | (None, acts) => fst (serve fuel acts)
  end.

(* ===================================================================== *)
(** ** The same program over a stream that arrives in segments *)

(** The embedding above takes [io.ReadFull] and [io.CopyN] as whole calls
    on the bytes still to arrive.  Here they are the loops of Go's library
    over single [conn.Read] calls, on a connection whose bytes arrive cut
    into segments, and into a buffer whose free space changes as it
    grows. *)
Module Segmented.

(** A connection: the segments still to arrive, in order (a segment may
    be empty), and how the stream ends after them. *)
Record Conn : Type := mkConn {
  segments : list (list byte);
  ending : option error
}.

(** The stream of a connection with the cuts forgotten. *)
Definition flatten (c : Conn) : Reader :=
  {| pending := concat (segments c); tail := ending c |}.

(** What one [conn.Read(p)] comes to. *)
Inductive chunk : Type :=
| Got (bs : list byte)     (* [(len(bs), nil)] *)
| Ended (e : error)        (* [(0, e)] *)
| Silent.                  (* the call never returns *)

(** [conn.Read(p)] with [len(p) = k]: at most the next segment, and at
    most [k] bytes of it; the rest of the segment stays for the next
    call. *)
Definition conn_Read (c : Conn) (k : nat) : chunk * Conn :=
  match segments c with
  | [] =>
      (match ending c with
       | Some e => Ended e
       | None => Silent
       end, c)
  | s :: rest =>
      if (length s <=? k)%nat
      then (Got s, {| segments := rest; ending := ending c |})
      else (Got (firstn k s), {| segments := skipn k s :: rest; ending := ending c |})
  end.

(** The loop that [io.ReadAtLeast] and [bytes.Buffer.ReadFrom] (under an
    [io.LimitedReader]) share: call [Read] until [want] bytes have come or
    a call reports an error.  [ask want got] is the length of the slice
    handed to the next [Read].
<<
    for n < min && err == nil { nn, err = r.Read(buf[n:]); n += nn }

    for {
        i := b.grow(MinRead)
        m, e := r.Read(b.buf[i:cap(b.buf)])   // r: if l.N <= 0 { return 0, EOF }
        ...                                   //    if len(p) > l.N { p = p[:l.N] }
        if e != nil { return n, e }
    }
>>
    The result is the bytes read, the connection afterwards, and how the
    loop ended: [Some None] with all [want] bytes, [Some (Some e)] at the
    error [e] of a [Read], [None] in a [Read] that never returns. *)
Fixpoint pull (fuel : nat) (ask : nat -> nat -> nat) (c : Conn) (want : nat)
  (acc : list byte) : list byte * Conn * option (option error) :=
  match fuel with
  | O => (acc, c, None)
  | S fuel' =>
      match want with
      | O => (acc, c, Some None)
      | S _ =>
          match conn_Read c (ask want (length acc)) with
          | (Silent, c') => (acc, c', None)
          | (Ended e, c') => (acc, c', Some (Some e))
          | (Got bs, c') => pull fuel' ask c' (want - length bs) (acc ++ bs)
          end
      end
  end.

(** More [Read] calls than a connection can answer without ending: every
    call that returns without error uses up a byte or a segment. *)
Definition budget (c : Conn) : nat :=
  S (length (concat (segments c)) + length (segments c)).

(** [io.ReadFull(conn, buf)] with [len(buf) = n]. *)
Definition ReadFull (c : Conn) (n : nat) : list byte * Conn * option (option error) :=
  let '(bs, c', r) := pull (budget c) (fun want _ => want) c n [] in
  (bs, c',
   match r with
   | Some (Some e) =>
       if is_EOF e
       then Some (Some (match bs with [] => EOF | _ => ErrUnexpectedEOF end))
       else Some (Some e)
   | other => other
   end).

(** [bytes.MinRead] *)
Definition MinRead : nat := 512.

(** [io.CopyN(buf, conn, n)] into a buffer of [b].  After [grow(MinRead)]
    the buffer has at least [MinRead] bytes free; [slack l] is what it has
    free beyond that when it holds [l] bytes. *)
Definition CopyN (slack : nat -> nat) (b : Buffer) (c : Conn) (n : Z)
  : Buffer * Conn * io.result :=
  if n <=? 0 then (b, c, io.Done 0 None)
  else
    let '(bs, c', r) :=
      pull (budget c)
           (fun want got => Nat.min (MinRead + slack (length b + got))%nat want)
           c (Z.to_nat n) [] in
    let written := Z.of_nat (length bs) in
    (b ++ bs, c',
     match r with
     | None => io.Waiting written
     | Some e =>
         let err := match e with
                    | Some e' => if is_EOF e' then None else Some e'
                    | None => None
                    end in
         if written =? n then io.Done n None
         else if (written <? n) && (match err with None => true | Some _ => false end)
         then io.Done written (Some EOF)
         else io.Done written err
     end).

(** The variables of [read]. *)
Record state : Type := mkState {
  g_size : Z;
  g_buf : Buffer;
  g_conn : Conn;
  g_out : list output
}.

(** The loop of [FileServer.read], as [read_loop] above. *)
Fixpoint read_loop (slack : nat -> nat) (fuel : nat) (st : state) : status * state :=
  match fuel with
  | O => (Running, st)
  | S fuel' =>
      let '(b, c, r) := CopyN slack (g_buf st) (g_conn st) (g_size st) in
      let st' := {| g_size := g_size st; g_buf := b; g_conn := c; g_out := g_out st |} in
      match r with
      | io.Waiting got => (Blocked got, st')
      | io.Done reqLen (Some err) =>
          if is_EOF err then (Returned reqLen, st') else (Fatal reqLen err, st')
      | io.Done reqLen None =>
          read_loop slack fuel'
            {| g_size := g_size st; g_buf := b; g_conn := c;
               g_out := g_out st ++ [PrintBytes b; PrintReceived reqLen] |}
      end
  end.

(** [FileServer.read], as [read] above: the prefix through [binary.Read],
    whose error is dropped, then the loop. *)
Definition read (slack : nat -> nat) (c : Conn) (fuel : nat) : status * state :=
  let '(bs, c', r) := ReadFull c 8 in
  let sz := match r with
            | Some None => to_int64 (binary.Uint64 bs)
            | _ => 0
            end in
  let st := {| g_size := sz; g_buf := []; g_conn := c'; g_out := [] |} in
  match r with
  | None => (Blocked 0, st)
  | Some _ => read_loop slack fuel st
  end.

(** A state with the cuts of its connection forgotten. *)
Definition forget (st : state) : rstate :=
  {| size := g_size st; buf := g_buf st; conn := flatten (g_conn st); out := g_out st |}.

End Segmented.

(* ===================================================================== *)
(** * Properties *)

(** ** The length prefix *)

Section Prefix.

Lemma length8 (b : list byte) :
  length b = 8%nat ->
  exists b0 b1 b2 b3 b4 b5 b6 b7, b = [b0; b1; b2; b3; b4; b5; b6; b7].
Proof.
  intros H.
  do 8 (destruct b as [|? b]; [discriminate H|]).
  destruct b; [|discriminate H].
  repeat eexists.
Qed.

(** Go's shift-and-or expression computes coqutil's [le_combine]. *)
Lemma Uint64_le_combine (b : list byte) :
  length b = 8%nat -> binary.Uint64 b = le_combine b.
Proof.
  intros H. destruct (length8 b H) as (b0 & b1 & b2 & b3 & b4 & b5 & b6 & b7 & ->).
  unfold binary.Uint64, binary.at_. cbn [nth]. unfold le_combine.
  rewrite Z.shiftl_0_l, Z.lor_0_r.
  rewrite !Z.shiftl_lor, !Z.shiftl_shiftl by lia. cbn [Z.add Pos.add Pos.succ].
  rewrite !Z.lor_assoc. reflexivity.
Qed.

Lemma byte_land_shifted (x : byte) (v : Z) : Z.land (byte.unsigned x) (v * 2 ^ 8) = 0.
Proof.
  pose proof (byte.unsigned_range x) as Hx.
  apply Z.bits_inj'. intros n Hn. rewrite Z.land_spec, Z.bits_0.
  destruct (Z.ltb_spec n 8).
  - rewrite Z.mul_pow2_bits_low by lia. apply andb_false_r.
  - replace (Z.testbit (byte.unsigned x) n) with false; [reflexivity|].
    symmetry. apply Z.bits_above_log2; [lia|].
    destruct (Z.eq_dec (byte.unsigned x) 0) as [->|]; [cbn; lia|].
    apply Z.log2_lt_pow2; [lia|].
    apply Z.lt_le_trans with (2 ^ 8); [lia|]. apply Z.pow_le_mono_r; lia.
Qed.

(** [le_combine] is the positional value of the bytes. *)
Lemma le_unsigned_le_combine (b : list byte) : le_unsigned b = le_combine b.
Proof.
  induction b as [|x b IH]; [reflexivity|].
  cbn [le_unsigned].
  change (le_combine (x :: b))
    with (Z.lor (byte.unsigned x) (Z.shiftl (le_combine b) 8)).
  rewrite IH, Z.shiftl_mul_pow2 by lia.
  rewrite <- Z.lxor_lor, <- Z.add_nocarry_lxor by apply byte_land_shifted.
  change (2 ^ 8) with 256. lia.
Qed.

Lemma le_unsigned_range (b : list byte) :
  0 <= le_unsigned b < 2 ^ (8 * Z.of_nat (length b)).
Proof.
  rewrite le_unsigned_le_combine. apply le_combine_bound.
Qed.

Lemma Uint64_le_unsigned (b : list byte) :
  length b = 8%nat -> binary.Uint64 b = le_unsigned b.
Proof.
  intros H. rewrite le_unsigned_le_combine. apply Uint64_le_combine, H.
Qed.

Lemma PutUint64_le_split (v : Z) : binary.PutUint64 v = le_split 8 v.
Proof.
  unfold binary.PutUint64, le_split.
  rewrite !Z.shiftr_shiftr by lia. reflexivity.
Qed.

Lemma PutUint64_length (v : Z) : length (binary.PutUint64 v) = 8%nat.
Proof. reflexivity. Qed.

Lemma Uint64_PutUint64 (v : Z) :
  0 <= v < 2 ^ 64 -> binary.Uint64 (binary.PutUint64 v) = v.
Proof.
  intros Hv. rewrite Uint64_le_combine by reflexivity.
  rewrite PutUint64_le_split, le_combine_split.
  apply Z.mod_small. exact Hv.
Qed.

Lemma to_int64_to_uint64 (v : Z) :
  - 2 ^ 63 <= v < 2 ^ 63 -> to_int64 (to_uint64 v) = v.
Proof.
  intros Hv. unfold to_int64, to_uint64.
  rewrite Zplus_mod_idemp_l. rewrite Z.mod_small; lia.
Qed.

Lemma to_uint64_range (v : Z) : 0 <= to_uint64 v < 2 ^ 64.
Proof. unfold to_uint64. apply Z.mod_pos_bound. lia. Qed.

Lemma to_int64_small (u : Z) : 0 <= u < 2 ^ 63 -> to_int64 u = u.
Proof. intros Hu. unfold to_int64. rewrite Z.mod_small; lia. Qed.

Lemma to_int64_large (u : Z) : 2 ^ 63 <= u < 2 ^ 64 -> to_int64 u = u - 2 ^ 64.
Proof.
  intros Hu. unfold to_int64.
  replace (u + 2 ^ 63) with ((u - 2 ^ 63) + 1 * 2 ^ 64) by lia.
  rewrite Z.mod_add by lia. rewrite Z.mod_small; lia.
Qed.

(** What the sender writes for a length, read back by the receiver. *)
Lemma prefix_roundtrip (v : Z) :
  - 2 ^ 63 <= v < 2 ^ 63 ->
  to_int64 (binary.Uint64 (binary.PutUint64 (to_uint64 v))) = v.
Proof.
  intros Hv. rewrite Uint64_PutUint64 by apply to_uint64_range.
  apply to_int64_to_uint64, Hv.
Qed.

Lemma prefix_roundtrip_0 : to_int64 (binary.Uint64 (binary.PutUint64 0)) = 0.
Proof. reflexivity. Qed.

End Prefix.

(** ** Reading from a stream *)

Section Reading.

Lemma advance_0 (r : Reader) : advance r 0 = r.
Proof. destruct r. reflexivity. Qed.

Lemma is_EOF_eq (e : error) : is_EOF e = true -> e = EOF.
Proof. destruct e; [reflexivity|discriminate..]. Qed.

(** [ReadFull] when the bytes are there. *)
Lemma ReadFull_ok (p rest : list byte) (tl : option error) :
  io.ReadFull {| pending := p ++ rest; tail := tl |} (length p) =
  {| io.f_bytes := p; io.f_src := {| pending := rest; tail := tl |}; io.f_ret := Some None |}.
Proof.
  unfold io.ReadFull, advance. cbn [pending tail].
  rewrite length_app.
  replace (length p <=? length p + length rest)%nat with true
    by (symmetry; apply Nat.leb_le; lia).
  rewrite firstn_app, Nat.sub_diag, firstn_all, firstn_O, app_nil_r.
  rewrite skipn_app, Nat.sub_diag, skipn_all, skipn_O.
  reflexivity.
Qed.

(** [binary.Read] of a complete prefix. *)
Lemma binary_Read_ok (p rest : list byte) (tl : option error) (data : Z) :
  length p = 8%nat ->
  binary_Read {| pending := p ++ rest; tail := tl |} data =
  {| b_data := to_int64 (binary.Uint64 p);
     b_src := {| pending := rest; tail := tl |};
     b_ret := Some None |}.
Proof.
  intros H. unfold binary_Read. rewrite <- H, ReadFull_ok. reflexivity.
Qed.

(** [binary.Read] of a stream that closes before the prefix is complete:
    an error is returned and the variable is left alone. *)
Lemma binary_Read_truncated (c : Reader) (data : Z) :
  (length (pending c) < 8)%nat ->
  tail c = Some EOF ->
  binary_Read c data =
  {| b_data := data;
     b_src := {| pending := []; tail := Some EOF |};
     b_ret := Some (Some (match pending c with [] => EOF | _ => ErrUnexpectedEOF end)) |}.
Proof.
  intros Hlen Htl. unfold binary_Read, io.ReadFull, advance.
  replace (8 <=? length (pending c))%nat with false
    by (symmetry; apply Nat.leb_gt; exact Hlen).
  cbn [io.f_ret io.f_src io.f_bytes pending tail].
  rewrite Htl. cbn [is_EOF].
  rewrite skipn_all2 by lia. reflexivity.
Qed.

(** [CopyN] into a [bytes.Buffer], in one equation: the buffer gains the
    next [n] bytes of the stream (all of them if there are fewer, none if
    [n <= 0]); the call returns [(max 0 n, nil)] if the stream had that
    many, and otherwise what ended the stream. *)
Lemma CopyN_Buffer (b : Buffer) (r : Reader) (n : Z) :
  io.CopyN b r n =
  {| io.c_dst := b ++ firstn (Z.to_nat n) (pending r);
     io.c_src := advance r (Z.to_nat n);
     io.c_ret :=
       if n <=? Z.of_nat (length (pending r))
       then io.Done (Z.max 0 n) None
       else match tail r with
            | None => io.Waiting (Z.of_nat (length (pending r)))
            | Some e => io.Done (Z.of_nat (length (pending r))) (Some e)
            end |}.
Proof.
  unfold io.CopyN, io.CopyLimited.
  destruct (Z.leb_spec n 0) as [Hn|Hn].
  - cbn [io.c_dst io.c_src io.c_ret].
    replace (Z.to_nat n) with 0%nat by lia.
    rewrite firstn_O, app_nil_r, advance_0.
    replace (n <=? Z.of_nat (length (pending r))) with true
      by (symmetry; apply Z.leb_le; lia).
    destruct (Z.eqb_spec 0 n) as [<-|Hne]; [reflexivity|].
    replace (0 <? n) with false by (symmetry; apply Z.ltb_ge; lia).
    cbn [andb]. f_equal. f_equal. lia.
  - cbn [write Buffer_Writer io.c_dst io.c_src io.c_ret].
    rewrite Nat.ltb_irrefl.
    destruct (Z.leb_spec n (Z.of_nat (length (pending r)))) as [Hle|Hgt].
    + rewrite length_firstn, Nat.min_l by lia.
      rewrite Z2Nat.id, Z.eqb_refl by lia. cbn [io.c_ret].
      rewrite Z.eqb_refl. f_equal. f_equal. lia.
    + rewrite firstn_all2 by lia.
      assert (Heq : (Z.of_nat (length (pending r)) =? n) = false)
        by (apply Z.eqb_neq; lia).
      assert (Hlt : (Z.of_nat (length (pending r)) <? n) = true)
        by (apply Z.ltb_lt; lia).
      rewrite Heq.
      destruct (tail r) as [e|]; [|reflexivity].
      destruct (is_EOF e) eqn:He; cbn [io.c_ret]; rewrite Heq, Hlt; cbn [andb].
      * apply is_EOF_eq in He. subst e. reflexivity.
      * reflexivity.
Qed.

End Reading.

(** ** The read loop *)

Section Loop.

(** One iteration: if the stream still has [size] bytes the loop goes on
    from [iterate st]; otherwise it stops in [drain st]. *)
Lemma read_loop_S (fuel : nat) (st : rstate) :
  read_loop (S fuel) st =
  if size st <=? Z.of_nat (length (pending (conn st)))
  then read_loop fuel (iterate st)
  else (stop (tail (conn st)) (Z.of_nat (length (pending (conn st)))), drain st).
Proof.
  cbn [read_loop]. rewrite CopyN_Buffer. cbn [io.c_dst io.c_src io.c_ret].
  destruct (Z.leb_spec (size st) (Z.of_nat (length (pending (conn st))))) as [Hle|Hgt].
  - reflexivity.
  - unfold drain, stop. rewrite firstn_all2 by lia.
    destruct (tail (conn st)) as [e|]; [destruct (is_EOF e)|]; reflexivity.
Qed.

Lemma iterate_nonpos (st : rstate) :
  size st <= 0 ->
  iterate st =
  {| size := size st; buf := buf st; conn := conn st;
     out := out st ++ [PrintBytes (buf st); PrintReceived 0] |}.
Proof.
  intros H. unfold iterate.
  replace (Z.to_nat (size st)) with 0%nat by lia.
  rewrite firstn_O, app_nil_r, advance_0, Z.max_l by lia. reflexivity.
Qed.

(** With a declared size of zero or less the loop never stops: every
    iteration returns [(0, nil)] at once, without reading the stream. *)
Lemma read_loop_nonpos (fuel : nat) (st : rstate) :
  size st <= 0 ->
  read_loop fuel st =
  (Running,
   {| size := size st; buf := buf st; conn := conn st;
      out := out st ++ idle (buf st) fuel |}).
Proof.
  revert st. induction fuel as [|fuel IH]; intros st H.
  - cbn [read_loop]. unfold idle. cbn [repeat concat].
    rewrite app_nil_r. destruct st; reflexivity.
  - rewrite read_loop_S.
    replace (size st <=? Z.of_nat (length (pending (conn st)))) with true
      by (symmetry; apply Z.leb_le; lia).
    rewrite iterate_nonpos by exact H.
    rewrite IH by exact H. cbn [size buf conn out].
    unfold idle. cbn [repeat concat]. rewrite <- app_assoc. reflexivity.
Qed.

(** With a positive size the loop stops once the stream has run out,
    after at most one iteration per byte and one more. *)
Lemma read_loop_stops (fuel : nat) (st : rstate) :
  0 < size st ->
  (length (pending (conn st)) < fuel)%nat ->
  fst (read_loop fuel st) =
    stop (tail (conn st)) (Z.of_nat (length (pending (conn st))) mod size st) /\
  buf (snd (read_loop fuel st)) = buf st ++ pending (conn st) /\
  pending (conn (snd (read_loop fuel st))) = [].
Proof.
  revert st. induction fuel as [|fuel IH]; intros st Hsz Hfuel; [lia|].
  rewrite read_loop_S.
  destruct (Z.leb_spec (size st) (Z.of_nat (length (pending (conn st))))) as [Hle|Hgt].
  - assert (Hlen : length (pending (conn (iterate st))) =
                   (length (pending (conn st)) - Z.to_nat (size st))%nat)
      by (cbn [iterate conn advance pending]; apply length_skipn).
    destruct (IH (iterate st)) as (Hs & Hb & Hp); [exact Hsz|lia|].
    rewrite Hs, Hb, Hp. cbn [iterate size buf conn advance pending tail].
    repeat split.
    + f_equal. rewrite length_skipn.
      replace (Z.of_nat (length (pending (conn st)) - Z.to_nat (size st)))
        with (Z.of_nat (length (pending (conn st))) + (-1) * size st) by lia.
      apply Z.mod_add. lia.
    + rewrite <- app_assoc, firstn_skipn. reflexivity.
  - cbn [fst snd drain buf conn advance pending]. repeat split.
    + rewrite Z.mod_small by lia. reflexivity.
    + apply skipn_all2. lia.
Qed.

(** Running the loop for [a + b] iterations is running it for [a] and,
    if it has not stopped, for [b] more. *)
Lemma read_loop_add (a b : nat) (st : rstate) :
  read_loop (a + b) st =
  match read_loop a st with
  | (Running, st1) => read_loop b st1
  | other => other
  end.
Proof.
  revert st. induction a as [|a IH]; intros st; [reflexivity|].
  cbn [Nat.add]. rewrite !read_loop_S.
  destruct (size st <=? Z.of_nat (length (pending (conn st)))).
  - apply IH.
  - destruct (tail (conn st)) as [e|]; cbn [stop]; [|reflexivity].
    destruct (is_EOF e); reflexivity.
Qed.

End Loop.

(** ** Invariants of the read loop *)

Section Invariants.

Lemma reported_app (a b : list output) : reported (a ++ b) = reported a ++ reported b.
Proof.
  induction a as [|x a IH]; [reflexivity|].
  destruct x; cbn [app reported]; rewrite IH; reflexivity.
Qed.

Lemma surfaced_app (a b : list output) : surfaced (a ++ b) = surfaced a ++ surfaced b.
Proof.
  induction a as [|x a IH]; [reflexivity|].
  destruct x; cbn [app surfaced]; rewrite IH; reflexivity.
Qed.

Lemma nth_error_in_range {A} (l : list A) (n : nat) (x : A) :
  nth_error l n = Some x -> (n < length l)%nat.
Proof. intros H. apply nth_error_Some. congruence. Qed.

Lemma sum_app (a b : list Z) : sum (a ++ b) = sum a + sum b.
Proof.
  unfold sum. induction a as [|x a IH]; cbn [app fold_right]; lia.
Qed.

Lemma iterate_length (st : rstate) :
  size st <= Z.of_nat (length (pending (conn st))) ->
  Z.of_nat (length (buf (iterate st))) = Z.of_nat (length (buf st)) + Z.max 0 (size st).
Proof.
  intros H. cbn [iterate buf]. rewrite length_app, length_firstn. lia.
Qed.

(** The loop changes neither [size] nor the way the stream ends, and it
    only moves bytes from the front of the stream to the end of the
    buffer. *)
Lemma read_loop_moves (fuel : nat) (st : rstate) :
  size (snd (read_loop fuel st)) = size st /\
  tail (conn (snd (read_loop fuel st))) = tail (conn st) /\
  exists more,
    buf (snd (read_loop fuel st)) = buf st ++ more /\
    pending (conn st) = more ++ pending (conn (snd (read_loop fuel st))).
Proof.
  revert st. induction fuel as [|fuel IH]; intros st.
  - cbn [read_loop snd]. repeat split. exists []. rewrite app_nil_r. split; reflexivity.
  - rewrite read_loop_S.
    destruct (Z.leb_spec (size st) (Z.of_nat (length (pending (conn st))))) as [Hle|Hgt].
    + destruct (IH (iterate st)) as (Hs & Ht & more & Hb & Hp).
      rewrite Hs, Ht. repeat split.
      exists (firstn (Z.to_nat (size st)) (pending (conn st)) ++ more). split.
      * rewrite Hb. cbn [iterate buf]. apply eq_sym, app_assoc.
      * rewrite <- app_assoc, <- Hp. cbn [iterate conn advance pending].
        apply eq_sym, firstn_skipn.
    + cbn [snd drain size conn buf advance tail pending]. repeat split.
      exists (pending (conn st)). split; [reflexivity|].
      rewrite skipn_all2 by lia. apply eq_sym, app_nil_r.
Qed.

(** What the loop prints is appended to the output; every count it
    prints is the growth of the buffer in that iteration; and the buffer
    has grown by the printed counts and by what the last call obtained. *)
Lemma read_loop_counts (fuel : nat) (st : rstate) :
  exists delta,
    out (snd (read_loop fuel st)) = out st ++ delta /\
    counted (Z.of_nat (length (buf st))) delta /\
    Z.of_nat (length (buf (snd (read_loop fuel st)))) =
      Z.of_nat (length (buf st)) + sum (reported delta) + unreported (fst (read_loop fuel st)).
Proof.
  revert st. induction fuel as [|fuel IH]; intros st.
  - exists []. cbn [read_loop fst snd unreported reported sum fold_right counted].
    rewrite app_nil_r. split; [reflexivity|]. split; [exact I|]. lia.
  - rewrite read_loop_S.
    destruct (Z.leb_spec (size st) (Z.of_nat (length (pending (conn st))))) as [Hle|Hgt].
    + destruct (IH (iterate st)) as (delta & Ho & Hc & Hl).
      pose proof (iterate_length st Hle) as Hgrow.
      exists ([PrintBytes (buf (iterate st)); PrintReceived (Z.max 0 (size st))] ++ delta).
      split; [|split].
      * rewrite Ho. cbn [iterate out buf]. rewrite <- app_assoc. reflexivity.
      * cbn [app counted]. split; [exact Hgrow|].
        rewrite <- Hgrow. exact Hc.
      * rewrite Hl, reported_app, sum_app, Hgrow. cbn [reported sum fold_right]. lia.
    + exists []. cbn [fst snd drain out buf]. rewrite app_nil_r.
      split; [reflexivity|]. split; [exact I|].
      rewrite length_app. cbn [reported sum fold_right].
      unfold stop.
      destruct (tail (conn st)) as [e|]; [destruct (is_EOF e)|]; cbn [unreported]; lia.
Qed.

(** The buffer contents printed by iteration [i + 1] are the buffer as
    it stands after [i + 1] iterations. *)
Lemma read_loop_surfaced (fuel : nat) (st : rstate) (i : nat) (snap : list byte) :
  nth_error (surfaced (out (snd (read_loop fuel st)))) (length (surfaced (out st)) + i)
    = Some snap ->
  snap = buf (snd (read_loop (S i) st)).
Proof.
  revert st i. induction fuel as [|fuel IH]; intros st i H.
  - cbn [read_loop snd] in H.
    apply nth_error_in_range in H. lia.
  - rewrite read_loop_S in H. rewrite read_loop_S.
    destruct (size st <=? Z.of_nat (length (pending (conn st)))).
    + assert (Hlen : length (surfaced (out (iterate st))) = S (length (surfaced (out st)))).
      { cbn [iterate out]. rewrite surfaced_app, length_app. cbn. lia. }
      destruct i as [|i].
      * destruct (read_loop_counts fuel (iterate st)) as (delta & Ho & _).
        rewrite Ho, surfaced_app in H. cbn [iterate out] in H.
        rewrite surfaced_app in H. cbn [surfaced] in H.
        rewrite <- app_assoc, Nat.add_0_r, nth_error_app2 in H by lia.
        rewrite Nat.sub_diag in H. cbn in H.
        injection H as <-. reflexivity.
      * apply IH. rewrite Hlen.
        replace (S (length (surfaced (out st))) + i)%nat
          with (length (surfaced (out st)) + S i)%nat by lia.
        exact H.
    + cbn [snd drain out] in H. apply nth_error_in_range in H. lia.
Qed.

(** Each iteration prints the buffer at most once. *)
Lemma read_loop_surfaced_length (fuel : nat) (st : rstate) :
  (length (surfaced (out (snd (read_loop fuel st)))) <= length (surfaced (out st)) + fuel)%nat.
Proof.
  revert st. induction fuel as [|fuel IH]; intros st.
  - cbn [read_loop snd]. lia.
  - rewrite read_loop_S.
    destruct (size st <=? Z.of_nat (length (pending (conn st)))).
    + specialize (IH (iterate st)). cbn [iterate out] in IH.
      rewrite surfaced_app, length_app in IH. cbn [surfaced length] in IH. lia.
    + cbn [snd drain out]. lia.
Qed.

End Invariants.

(** ** The receiver *)

Section Receiver.

(** After a complete prefix, [read] is its loop with the decoded size. *)
Lemma read_prefix (p rest : list byte) (tl : option error) (fuel : nat) :
  length p = 8%nat ->
  read {| pending := p ++ rest; tail := tl |} fuel =
  read_loop fuel
    {| size := to_int64 (binary.Uint64 p); buf := [];
       conn := {| pending := rest; tail := tl |}; out := [] |}.
Proof.
  intros H. unfold read. rewrite binary_Read_ok by exact H. reflexivity.
Qed.

(** The stream that [read] hands to its loop is the one it was given
    without its first eight bytes. *)
Lemma read_payload (c : Reader) :
  pending (b_src (binary_Read c 0)) = skipn 8 (pending c).
Proof.
  unfold binary_Read, io.ReadFull.
  destruct (8 <=? length (pending c))%nat; reflexivity.
Qed.

Lemma surfaced_bounded (c : Reader) (fuel : nat) :
  (length (surfaced (out (snd (read c fuel)))) <= fuel)%nat.
Proof.
  unfold read. destruct (b_ret (binary_Read c 0)).
  - apply (read_loop_surfaced_length fuel
             {| size := b_data (binary_Read c 0); buf := [];
                conn := b_src (binary_Read c 0); out := [] |}).
  - cbn. lia.
Qed.

(** A frame as it arrives when the peer closes after it. *)
Lemma read_whole_frame (p payload : list byte) (fuel : nat) :
  length p = 8%nat ->
  to_int64 (binary.Uint64 p) = Z.of_nat (length payload) ->
  payload <> [] ->
  (2 <= fuel)%nat ->
  read {| pending := p ++ payload; tail := Some EOF |} fuel =
  (Returned 0,
   {| size := Z.of_nat (length payload); buf := payload;
      conn := {| pending := []; tail := Some EOF |};
      out := [PrintBytes payload; PrintReceived (Z.of_nat (length payload))] |}).
Proof.
  intros Hp Hsz Hne Hfuel.
  assert (Hpos : (0 < length payload)%nat) by (destruct payload; [congruence|cbn; lia]).
  rewrite read_prefix, Hsz by exact Hp.
  destruct fuel as [|[|fuel]]; [lia..|].
  rewrite read_loop_S. cbn [size conn pending]. rewrite Z.leb_refl.
  rewrite read_loop_S.
  cbn [iterate size buf conn out advance pending tail app].
  rewrite Nat2Z.id, skipn_all. cbn [length].
  replace (Z.of_nat (length payload) <=? Z.of_nat 0) with false
    by (symmetry; apply Z.leb_gt; lia).
  unfold stop, drain, iterate, advance.
  cbn [is_EOF size buf conn out pending tail app].
  rewrite Nat2Z.id, firstn_all, skipn_all, app_nil_r, skipn_nil, Z.max_r by lia.
  reflexivity.
Qed.

(** A frame cut short: the peer closes after fewer payload bytes than the
    prefix declares. *)
Lemma read_short_frame (p payload : list byte) (fuel : nat) :
  length p = 8%nat ->
  Z.of_nat (length payload) < to_int64 (binary.Uint64 p) ->
  (1 <= fuel)%nat ->
  read {| pending := p ++ payload; tail := Some EOF |} fuel =
  (Returned (Z.of_nat (length payload)),
   {| size := to_int64 (binary.Uint64 p); buf := payload;
      conn := {| pending := []; tail := Some EOF |};
      out := [] |}).
Proof.
  intros Hp Hlt Hfuel. rewrite read_prefix by exact Hp.
  destruct fuel as [|fuel]; [lia|].
  rewrite read_loop_S. cbn [size conn pending].
  replace (to_int64 (binary.Uint64 p) <=? Z.of_nat (length payload)) with false
    by (symmetry; apply Z.leb_gt; lia).
  unfold stop, drain, advance.
  cbn [is_EOF size buf conn out pending tail app].
  rewrite skipn_all2 by lia. reflexivity.
Qed.

(** [log.Fatal] is reached only through a stream error other than
    [io.EOF]. *)
Lemma read_loop_fatal (fuel : nat) (st : rstate) (n : Z) (e : error) :
  fst (read_loop fuel st) = Fatal n e ->
  tail (conn st) = Some e /\ is_EOF e = false.
Proof.
  revert st. induction fuel as [|fuel IH]; intros st H; [discriminate H|].
  rewrite read_loop_S in H.
  destruct (size st <=? Z.of_nat (length (pending (conn st)))).
  - apply IH in H. exact H.
  - cbn [fst] in H. unfold stop in H.
    destruct (tail (conn st)) as [e'|]; [|discriminate H].
    destruct (is_EOF e') eqn:He; [discriminate H|].
    injection H as _ <-. split; [reflexivity|exact He].
Qed.

Lemma read_fatal (c : Reader) (fuel : nat) (n : Z) (e : error) :
  fst (read c fuel) = Fatal n e ->
  tail c = Some e /\ is_EOF e = false.
Proof.
  unfold read. destruct (b_ret (binary_Read c 0)); [|discriminate].
  intros H. apply read_loop_fatal in H.
  unfold binary_Read, io.ReadFull in H.
  destruct (8 <=? length (pending c))%nat; exact H.
Qed.

End Receiver.

(** ** The sender *)

Section Sender.

(** A write on a connection, in one equation. *)
Lemma wire_write_spec (w : Wire) (p : list byte) :
  wire_write w p =
  ({| sent := sent w ++ taken (room w) p;
      room := room_after (room w) (length p);
      broken := broken w |},
   length (taken (room w) p),
   if fits (room w) p then None else Some (broken w)).
Proof.
  unfold wire_write, taken, fits, room_after.
  destruct (room w) as [k|]; cbn [option_map]; [|reflexivity].
  destruct (Nat.leb_spec (length p) k) as [Hle|Hgt].
  - rewrite firstn_all2 by lia. reflexivity.
  - rewrite length_firstn, Nat.min_l by lia.
    replace (k - length p)%nat with 0%nat by lia. reflexivity.
Qed.

Lemma fits_taken (r : option nat) (p : list byte) : fits r p = true -> taken r p = p.
Proof.
  destruct r as [k|]; cbn [fits taken]; [|reflexivity].
  intros H. apply Nat.leb_le in H. apply firstn_all2. exact H.
Qed.

Lemma taken_short (r : option nat) (p : list byte) :
  fits r p = false -> (length (taken r p) < length p)%nat.
Proof.
  destruct r as [k|]; cbn [fits taken]; [|discriminate].
  intros H. apply Nat.leb_gt in H. rewrite length_firstn. lia.
Qed.

(** What a connection takes of two writes in a row is what it would have
    taken of both at once. *)
Lemma taken_app (r : option nat) (p q : list byte) :
  taken r p ++ taken (room_after r (length p)) q = taken r (p ++ q).
Proof.
  destruct r as [k|]; cbn [taken room_after option_map]; [|reflexivity].
  rewrite firstn_app. reflexivity.
Qed.

(** [CopyN] of a whole file onto a connection is one write of the file. *)
Lemma CopyN_Wire (w : Wire) (file : list byte) :
  io.CopyN w (NewReader file) (Z.of_nat (length file)) =
  {| io.c_dst := fst (fst (wire_write w file));
     io.c_src := NewReader [];
     io.c_ret := io.Done (Z.of_nat (snd (fst (wire_write w file)))) (snd (wire_write w file)) |}.
Proof.
  rewrite wire_write_spec. cbn [fst snd].
  unfold io.CopyN, io.CopyLimited.
  destruct file as [|x file].
  - cbn [length Z.of_nat Z.leb Z.compare io.c_dst io.c_src io.c_ret Z.eqb].
    destruct w as [s [k|] e]; cbn [taken fits room_after option_map sent room broken length];
      rewrite ?firstn_nil, ?app_nil_r, ?Nat.sub_0_r; reflexivity.
  - set (f := x :: file).
    assert (Hpos : 0 < Z.of_nat (length f)) by (subst f; cbn [length]; lia).
    replace (Z.of_nat (length f) <=? 0) with false by (symmetry; apply Z.leb_gt; lia).
    unfold NewReader, advance. cbn [pending tail write Wire_Writer].
    rewrite Nat2Z.id, firstn_all, skipn_all, wire_write_spec.
    cbn [io.c_dst io.c_src io.c_ret].
    destruct (fits (room w) f) eqn:Hfit.
    + rewrite fits_taken by exact Hfit.
      rewrite Nat.ltb_irrefl, Z.eqb_refl. cbn [io.c_ret]. rewrite Z.eqb_refl. reflexivity.
    + pose proof (taken_short _ _ Hfit) as Hshort. cbn [io.c_ret].
      replace (Z.of_nat (length (taken (room w) f)) =? Z.of_nat (length f)) with false
        by (symmetry; apply Z.eqb_neq; lia).
      rewrite andb_false_r. reflexivity.
Qed.

(** [send] with enough random bytes and a connection: the prefix write,
    whose error is dropped, then the file in one write. *)
Lemma send_dialled (rnd : Reader) (w0 : Wire) (sz : Z) :
  0 <= sz < 2 ^ 63 ->
  sz <= Z.of_nat (length (pending rnd)) ->
  let file := firstn (Z.to_nat sz) (pending rnd) in
  let w1 := fst (binary_Write w0 sz) in
  send rnd (inl w0) sz =
  {| s_result := SendReturns (if fits (room w1) file then None else Some (broken w0));
     s_file := file;
     s_wire := Some (fst (fst (wire_write w1 file)));
     s_out := if fits (room w1) file then [PrintSent sz] else [] |}.
Proof.
  intros Hsz Hrnd file w1. unfold send.
  replace (sz <? 0) with false by (symmetry; apply Z.ltb_ge; lia).
  unfold io.ReadFull.
  replace (Z.to_nat sz <=? length (pending rnd))%nat with true
    by (symmetry; apply Nat.leb_le; lia).
  cbn [io.f_ret io.f_bytes]. fold file.
  rewrite to_int64_small by lia.
  assert (Hlen : sz = Z.of_nat (length file)).
  { subst file. rewrite length_firstn. lia. }
  destruct (binary_Write w0 sz) as [w1' e1] eqn:Hw. subst w1. cbn [fst].
  assert (Hb : broken w1' = broken w0).
  { unfold binary_Write in Hw. cbn [write Wire_Writer] in Hw.
    rewrite wire_write_spec in Hw. injection Hw as <- _. reflexivity. }
  replace (io.CopyN w1' (NewReader file) sz)
    with (io.CopyN w1' (NewReader file) (Z.of_nat (length file)))
    by (rewrite <- Hlen; reflexivity).
  rewrite CopyN_Wire. cbn [io.c_ret io.c_dst].
  rewrite wire_write_spec. cbn [fst snd]. rewrite Hb.
  destruct (fits (room w1') file) eqn:Hfit.
  - rewrite fits_taken by exact Hfit. rewrite <- Hlen. reflexivity.
  - reflexivity.
Qed.

End Sender.

(* ===================================================================== *)
(** * The claims of the specification *)

Section RoundTrip.

(** A frame with a payload that is not empty survives the round trip:
    what [send] puts on a healthy connection, [read] decodes, once the
    connection is closed, to the same length and the same bytes, and it
    returns after two iterations. *)
Lemma roundtrip_nonempty (rnd : Reader) (e : error) (sz : Z) (fuel : nat) :
  0 < sz < 2 ^ 63 ->
  sz <= Z.of_nat (length (pending rnd)) ->
  (2 <= fuel)%nat ->
  let st := send rnd (inl {| sent := []; room := None; broken := e |}) sz in
  s_result st = SendReturns None /\
  s_file st = firstn (Z.to_nat sz) (pending rnd) /\
  exists w,
    s_wire st = Some w /\
    sent w = binary.PutUint64 sz ++ s_file st /\
    read (delivered w) fuel =
    (Returned 0,
     {| size := sz; buf := s_file st; conn := NewReader [];
        out := [PrintBytes (s_file st); PrintReceived sz] |}).
Proof.
  intros Hsz Hrnd Hfuel st. subst st.
  rewrite send_dialled by lia.
  unfold binary_Write. cbn [write Wire_Writer].
  rewrite !wire_write_spec.
  cbn [fst snd sent room broken taken fits room_after option_map
       s_result s_file s_wire s_out app].
  split; [reflexivity|]. split; [reflexivity|].
  eexists. split; [reflexivity|].
  cbn [sent].
  unfold to_uint64. rewrite Z.mod_small by lia.
  split; [reflexivity|].
  set (file := firstn (Z.to_nat sz) (pending rnd)).
  assert (Hlen : Z.of_nat (length file) = sz).
  { subst file. rewrite length_firstn. lia. }
  unfold delivered, NewReader. cbn [sent].
  rewrite <- Hlen at 2 3.
  apply read_whole_frame.
  - reflexivity.
  - rewrite Uint64_PutUint64, to_int64_small by lia. lia.
  - intros ->. cbn [length] in Hlen. lia.
  - exact Hfuel.
Qed.

Lemma roundtrip_nonempty_witness :
  let rnd := NewReader [Byte.x68; Byte.x65; Byte.x6c; Byte.x6c; Byte.x6f] in
  let st := send rnd (inl {| sent := []; room := None; broken := ErrShortWrite |}) 5 in
  s_result st = SendReturns None /\
  s_file st = firstn (Z.to_nat 5) (pending rnd) /\
  exists w,
    s_wire st = Some w /\
    sent w = binary.PutUint64 5 ++ s_file st /\
    read (delivered w) 2 =
    (Returned 0,
     {| size := 5; buf := s_file st; conn := NewReader [];
        out := [PrintBytes (s_file st); PrintReceived 5] |}).
Proof.
  apply (roundtrip_nonempty
           (NewReader [Byte.x68; Byte.x65; Byte.x6c; Byte.x6c; Byte.x6f]) ErrShortWrite 5 2).
  - lia.
  - cbn [NewReader pending length]. lia.
  - lia.
Defined.

(** C1 (round trip), at the payload length 0 where it fails: [send 0]
    succeeds and puts the eight zero bytes of the prefix on the wire; the
    receiver decodes the length 0 and an empty payload from them, but its
    loop never ends, whatever the number of iterations it is given: each
    [CopyN] of zero bytes returns [(0, nil)], so the [break] at [io.EOF]
    is never reached. *)
Theorem roundtrip_empty_never_returns (rnd : Reader) (e : error) (fuel : nat) :
  let st := send rnd (inl {| sent := []; room := None; broken := e |}) 0 in
  s_result st = SendReturns None /\
  s_file st = [] /\
  s_out st = [PrintSent 0] /\
  exists w,
    s_wire st = Some w /\
    sent w = binary.PutUint64 0 /\
    read (delivered w) fuel =
    (Running,
     {| size := 0; buf := []; conn := NewReader []; out := idle [] fuel |}).
Proof.
  intros st. subst st.
  rewrite send_dialled by (cbn [Z.to_nat]; lia).
  unfold binary_Write. cbn [write Wire_Writer].
  rewrite !wire_write_spec.
  cbn [fst snd sent room broken taken fits room_after option_map
       s_result s_file s_wire s_out app Z.to_nat firstn].
  repeat split.
  eexists. split; [reflexivity|]. cbn [sent]. split; [reflexivity|].
  unfold delivered, NewReader. cbn [sent].
  change (to_uint64 0) with 0.
  rewrite <- (app_nil_r (binary.PutUint64 0)).
  rewrite read_prefix by reflexivity.
  rewrite app_nil_r, prefix_roundtrip_0.
  rewrite read_loop_nonpos by (cbn [size]; lia).
  cbn [size buf conn out app]. reflexivity.
Qed.

End RoundTrip.

Section Decoding.

(** C2 (truncated prefix), as the code behaves: when the stream closes
    after fewer than eight bytes, [binary.Read] does return an error
    ([io.EOF] or [io.ErrUnexpectedEOF]), but [read] drops it, keeps the
    size 0 the variable was declared with, and enters its loop, which then
    never ends.  No decode error is reported. *)
Theorem truncated_prefix_proceeds_with_zero (c : Reader) (fuel : nat) :
  (length (pending c) < 8)%nat ->
  tail c = Some EOF ->
  b_ret (binary_Read c 0) =
    Some (Some (match pending c with [] => EOF | _ => ErrUnexpectedEOF end)) /\
  read c fuel =
    (Running, {| size := 0; buf := []; conn := NewReader []; out := idle [] fuel |}).
Proof.
  intros Hlen Htl. unfold read.
  rewrite binary_Read_truncated by assumption.
  cbn [b_ret b_data b_src]. split; [reflexivity|].
  rewrite read_loop_nonpos by (cbn [size]; lia).
  reflexivity.
Qed.

Lemma truncated_prefix_witness :
  b_ret (binary_Read (NewReader [Byte.x05; Byte.x00; Byte.x00]) 0) =
    Some (Some ErrUnexpectedEOF) /\
  read (NewReader [Byte.x05; Byte.x00; Byte.x00]) 2 =
    (Running, {| size := 0; buf := []; conn := NewReader []; out := idle [] 2 |}).
Proof.
  apply (truncated_prefix_proceeds_with_zero (NewReader [Byte.x05; Byte.x00; Byte.x00]) 2).
  - cbn [NewReader pending length]. lia.
  - reflexivity.
Defined.

(** C3 (zero-length frame), as the code behaves: after a prefix that
    declares the length 0 the receiver holds zero payload bytes and never
    reads the connection again (whatever follows on it stays unread, and
    a silent peer does not make it wait), but the loop does not end: for
    every number of iterations it is still running, printing the empty
    buffer and a count of 0 each time. *)
Theorem zero_length_frame_never_returns
  (rest : list byte) (tl : option error) (fuel : nat) :
  read {| pending := binary.PutUint64 0 ++ rest; tail := tl |} fuel =
  (Running,
   {| size := 0; buf := []; conn := {| pending := rest; tail := tl |};
      out := idle [] fuel |}).
Proof.
  rewrite read_prefix by reflexivity.
  rewrite prefix_roundtrip_0.
  rewrite read_loop_nonpos by (cbn [size]; lia).
  reflexivity.
Qed.

(** C4, the claim as stated fails: the prefix of eight [0xff] bytes is
    the unsigned value [2^64 - 1], and the receiver's size is [-1]. *)
Lemma prefix_all_ones_decodes_to_minus_one :
  le_unsigned (repeat Byte.xff 8) = 18446744073709551615 /\
  size (snd (read (NewReader (repeat Byte.xff 8)) 0)) = -1 /\
  size (snd (read (NewReader (repeat Byte.xff 8)) 0)) <> le_unsigned (repeat Byte.xff 8).
Proof.
  split; [reflexivity|]. split; [reflexivity|]. discriminate.
Qed.

(** C4, amended: the receiver reads the first eight bytes and takes them
    as a signed ([int64], two's complement) little-endian integer: the
    size is the unsigned value of the bytes when that is below [2^63], and
    the unsigned value minus [2^64] when the most significant bit is set.
    The loop never changes it. *)
Theorem prefix_decodes_as_int64
  (p rest : list byte) (tl : option error) (fuel : nat) :
  length p = 8%nat ->
  size (snd (read {| pending := p ++ rest; tail := tl |} fuel)) =
  if le_unsigned p <? 2 ^ 63 then le_unsigned p else le_unsigned p - 2 ^ 64.
Proof.
  intros Hp. rewrite read_prefix by exact Hp.
  destruct (read_loop_moves fuel
              {| size := to_int64 (binary.Uint64 p); buf := [];
                 conn := {| pending := rest; tail := tl |}; out := [] |}) as (Hs & _).
  rewrite Hs. cbn [size]. rewrite Uint64_le_unsigned by exact Hp.
  pose proof (le_unsigned_range p) as Hr. rewrite Hp in Hr.
  change (8 * Z.of_nat 8) with 64 in Hr.
  destruct (Z.ltb_spec (le_unsigned p) (2 ^ 63)).
  - apply to_int64_small. lia.
  - apply to_int64_large. lia.
Qed.

Lemma prefix_decodes_as_int64_witness :
  size (snd (read {| pending := binary.PutUint64 (2 ^ 63 + 7) ++ [Byte.x01];
                     tail := Some EOF |} 3)) =
  if le_unsigned (binary.PutUint64 (2 ^ 63 + 7)) <? 2 ^ 63
  then le_unsigned (binary.PutUint64 (2 ^ 63 + 7))
  else le_unsigned (binary.PutUint64 (2 ^ 63 + 7)) - 2 ^ 64.
Proof.
  apply (prefix_decodes_as_int64 (binary.PutUint64 (2 ^ 63 + 7)) [Byte.x01] (Some EOF) 3).
  reflexivity.
Defined.

(** C5: when the prefix declares the length [L] and the peer closes after
    only [m < L] payload bytes, the loop leaves through the [io.EOF]
    branch in its first iteration with [reqLen = m] and exactly the [m]
    bytes in the buffer, printing nothing.  Had [L] bytes arrived, the
    loop would have printed the buffer and "Received L bytes" before
    leaving: the buffer and the output differ, and the number of bytes
    received is not [L]. *)
Theorem short_frame_ends_at_eof (p payload : list byte) (fuel : nat) :
  length p = 8%nat ->
  Z.of_nat (length payload) < to_int64 (binary.Uint64 p) ->
  (1 <= fuel)%nat ->
  let L := to_int64 (binary.Uint64 p) in
  let m := Z.of_nat (length payload) in
  let short := read {| pending := p ++ payload; tail := Some EOF |} fuel in
  short = (Returned m, {| size := L; buf := payload; conn := NewReader []; out := [] |}) /\
  m <> L /\
  forall (full : list byte) (fuel' : nat),
    Z.of_nat (length full) = L ->
    (2 <= fuel')%nat ->
    let whole := read {| pending := p ++ full; tail := Some EOF |} fuel' in
    whole = (Returned 0,
             {| size := L; buf := full; conn := NewReader [];
                out := [PrintBytes full; PrintReceived L] |}) /\
    buf (snd short) <> buf (snd whole) /\
    out (snd short) <> out (snd whole).
Proof.
  intros Hp Hlt Hfuel L m short.
  assert (Hshort : short =
    (Returned m, {| size := L; buf := payload; conn := NewReader []; out := [] |})).
  { subst short. apply read_short_frame; assumption. }
  split; [exact Hshort|]. split; [subst m L; lia|].
  intros full fuel' Hfull Hfuel' whole.
  assert (Hne : full <> []).
  { intros ->. cbn [length] in Hfull. subst m L. lia. }
  assert (Hwhole : whole =
    (Returned 0, {| size := L; buf := full; conn := NewReader [];
                    out := [PrintBytes full; PrintReceived L] |})).
  { subst whole. rewrite <- Hfull. apply read_whole_frame; try assumption.
    subst L. lia. }
  split; [exact Hwhole|].
  rewrite Hshort, Hwhole. cbn [fst snd buf out].
  split.
  - intros H. subst full. subst m L. lia.
  - discriminate.
Qed.

Lemma short_frame_ends_at_eof_witness :
  let p := binary.PutUint64 3 in
  let payload := [Byte.x61; Byte.x62] in
  let L := to_int64 (binary.Uint64 p) in
  let m := Z.of_nat (length payload) in
  let short := read {| pending := p ++ payload; tail := Some EOF |} 1 in
  short = (Returned m, {| size := L; buf := payload; conn := NewReader []; out := [] |}) /\
  m <> L /\
  forall (full : list byte) (fuel' : nat),
    Z.of_nat (length full) = L ->
    (2 <= fuel')%nat ->
    let whole := read {| pending := p ++ full; tail := Some EOF |} fuel' in
    whole = (Returned 0,
             {| size := L; buf := full; conn := NewReader [];
                out := [PrintBytes full; PrintReceived L] |}) /\
    buf (snd short) <> buf (snd whole) /\
    out (snd short) <> out (snd whole).
Proof.
  apply (short_frame_ends_at_eof (binary.PutUint64 3) [Byte.x61; Byte.x62] 1).
  - reflexivity.
  - vm_compute. reflexivity.
  - lia.
Defined.

End Decoding.

Section Sending.

(** C6: for a length [size] and a connection just dialled, [send] writes
    the eight little-endian bytes of [size] and then the [size] bytes of
    the file, in that order: what the connection has taken at the end is
    the frame, up to the point where the connection broke, if it did.
    If the connection has room for fewer than [size] payload bytes after
    the prefix, [send] returns the write error and prints nothing; if it
    returns [nil], it has printed "Sent size bytes"; and on a connection
    with room for the whole frame it does return [nil], with exactly the
    frame on the wire. *)
Theorem send_writes_prefix_then_payload (rnd : Reader) (w0 : Wire) (sz : Z) :
  0 <= sz < 2 ^ 63 ->
  sz <= Z.of_nat (length (pending rnd)) ->
  sent w0 = [] ->
  let file := firstn (Z.to_nat sz) (pending rnd) in
  let frame := binary.PutUint64 sz ++ file in
  let st := send rnd (inl w0) sz in
  s_file st = file /\
  Z.of_nat (length file) = sz /\
  (exists w, s_wire st = Some w /\ sent w = taken (room w0) frame) /\
  (forall k, room w0 = Some k -> (k - 8 < Z.to_nat sz)%nat ->
     s_result st = SendReturns (Some (broken w0)) /\ s_out st = []) /\
  (s_result st = SendReturns None -> s_out st = [PrintSent sz]) /\
  (fits (room w0) frame = true ->
     s_result st = SendReturns None /\ s_out st = [PrintSent sz] /\
     exists w, s_wire st = Some w /\ sent w = frame).
Proof.
  intros Hsz Hrnd Hfresh file frame st.
  assert (Hlen : length file = Z.to_nat sz).
  { subst file. rewrite length_firstn. lia. }
  assert (Hst : st =
    {| s_result := SendReturns (if fits (room_after (room w0) 8) file
                                then None else Some (broken w0));
       s_file := file;
       s_wire := Some {| sent := taken (room w0) frame;
                         room := room_after (room_after (room w0) 8) (length file);
                         broken := broken w0 |};
       s_out := if fits (room_after (room w0) 8) file then [PrintSent sz] else [] |}).
  { subst st. rewrite send_dialled by assumption. fold file.
    unfold binary_Write. cbn [write Wire_Writer].
    rewrite !wire_write_spec. cbn [fst snd sent room broken].
    rewrite Hfresh. cbn [app].
    unfold to_uint64. rewrite Z.mod_small by lia.
    rewrite PutUint64_length, <- (PutUint64_length sz), taken_app.
    reflexivity. }
  rewrite Hst. cbn [s_result s_file s_wire s_out].
  split; [reflexivity|]. split; [lia|].
  split; [eexists; split; reflexivity|].
  split; [|split].
  - intros k Hk Hroom. rewrite Hk. cbn [room_after option_map fits].
    replace (length file <=? k - 8)%nat with false
      by (symmetry; apply Nat.leb_gt; lia).
    split; reflexivity.
  - destruct (fits (room_after (room w0) 8) file); [reflexivity|discriminate].
  - intros Hfit.
    assert (Hfit' : fits (room_after (room w0) 8) file = true).
    { destruct (room w0) as [k|]; cbn [fits room_after option_map] in *; [|reflexivity].
      apply Nat.leb_le in Hfit. apply Nat.leb_le.
      subst frame. rewrite length_app, PutUint64_length in Hfit. lia. }
    rewrite Hfit', fits_taken by exact Hfit.
    repeat split. eexists. split; reflexivity.
Qed.

Lemma send_writes_prefix_then_payload_witness :
  let rnd := NewReader [Byte.x0a; Byte.x0b; Byte.x0c; Byte.x0d] in
  let w0 := {| sent := []; room := Some 9%nat; broken := ErrOther "broken pipe" |} in
  let file := firstn (Z.to_nat 3) (pending rnd) in
  let frame := binary.PutUint64 3 ++ file in
  let st := send rnd (inl w0) 3 in
  s_file st = file /\
  Z.of_nat (length file) = 3 /\
  (exists w, s_wire st = Some w /\ sent w = taken (room w0) frame) /\
  (forall k, room w0 = Some k -> (k - 8 < Z.to_nat 3)%nat ->
     s_result st = SendReturns (Some (broken w0)) /\ s_out st = []) /\
  (s_result st = SendReturns None -> s_out st = [PrintSent 3]) /\
  (fits (room w0) frame = true ->
     s_result st = SendReturns None /\ s_out st = [PrintSent 3] /\
     exists w, s_wire st = Some w /\ sent w = frame).
Proof.
  apply (send_writes_prefix_then_payload
           (NewReader [Byte.x0a; Byte.x0b; Byte.x0c; Byte.x0d])
           {| sent := []; room := Some 9%nat; broken := ErrOther "broken pipe" |} 3).
  - lia.
  - cbn [NewReader pending length]. lia.
  - reflexivity.
Defined.

End Sending.

Section Listening.

Lemma accept_loop_app (a b : list accepted) :
  accept_loop (a ++ b) = accept_loop a ++ accept_loop b.
Proof.
  induction a as [|x a IH]; [reflexivity|].
  destruct x; cbn [app accept_loop]; rewrite IH; reflexivity.
Qed.

Lemma accept_loop_serves (accepts : list accepted) (c : Reader) :
  In (AcceptConn c) accepts -> In (GoRead c) (accept_loop accepts).
Proof.
  induction accepts as [|x accepts IH]; [intros []|].
  intros [->|H].
  - left. reflexivity.
  - destruct x; right; apply IH, H.
Qed.

(** C7: when [net.Listen] fails, [start] returns that error and accepts
    nothing.  Otherwise [start] does not return; an [Accept] that fails
    is printed and the loop goes on with the next one, so that everything
    accepted before and after the failure is handled as if the failure
    had not happened, and every connection accepted after it still gets
    its handler. *)
Theorem accept_error_does_not_stop_listener
  (lerr aerr : error) (before after : list accepted) :
  start (Some lerr) (before ++ AcceptErr aerr :: after) = (Some lerr, []) /\
  start None (before ++ AcceptErr aerr :: after) =
    (None,
     accept_loop before ++ Println (PrintAcceptError aerr) :: accept_loop after) /\
  (forall accepts, fst (start None accepts) = None) /\
  (forall c, In (AcceptConn c) after ->
     In (GoRead c) (snd (start None (before ++ AcceptErr aerr :: after)))).
Proof.
  cbn [start fst snd]. rewrite accept_loop_app. cbn [accept_loop].
  repeat split.
  intros c Hc. apply in_or_app. right. right.
  apply accept_loop_serves, Hc.
Qed.

End Listening.

Section ReadErrors.

(** C8: in the payload loop (the prefix declares a positive size, so the
    loop does read the connection), a stream that ends with [io.EOF] makes
    [read] leave its loop and return, and the process goes on to serve
    the other connections; a stream that ends with any other error makes
    [read] call [log.Fatal], and the whole process exits with status 1:
    no connection accepted after that one is handled.  Whatever the size,
    [log.Fatal] is never reached on a stream that ends with [io.EOF]. *)
Theorem eof_returns_other_errors_are_fatal
  (p payload : list byte) (e : error) (fuel : nat) :
  length p = 8%nat ->
  0 < to_int64 (binary.Uint64 p) ->
  (length payload < fuel)%nat ->
  is_EOF e = false ->
  let closed := {| pending := p ++ payload; tail := Some EOF |} in
  let failed := {| pending := p ++ payload; tail := Some e |} in
  (exists n, fst (read closed fuel) = Returned n) /\
  (forall others,
     serve fuel (GoRead closed :: others) =
     (fst (serve fuel others), closed :: snd (serve fuel others))) /\
  (exists n, fst (read failed fuel) = Fatal n e) /\
  (forall others, serve fuel (GoRead failed :: others) = (Some 1, [failed])) /\
  (forall c k n e', fst (read c k) = Fatal n e' -> tail c = Some e' /\ is_EOF e' = false).
Proof.
  intros Hp Hsz Hfuel He closed failed.
  assert (Hclosed : exists n, fst (read closed fuel) = Returned n).
  { subst closed. rewrite read_prefix by exact Hp.
    edestruct read_loop_stops as (Hs & _); [..|rewrite Hs]; cbn [size conn pending tail];
      [exact Hsz|exact Hfuel|].
    eexists. reflexivity. }
  assert (Hfailed : exists n, fst (read failed fuel) = Fatal n e).
  { subst failed. rewrite read_prefix by exact Hp.
    edestruct read_loop_stops as (Hs & _); [..|rewrite Hs]; cbn [size conn pending tail];
      [exact Hsz|exact Hfuel|].
    unfold stop. rewrite He. eexists. reflexivity. }
  split; [exact Hclosed|]. split; [|split; [exact Hfailed|split]].
  - intros others. cbn [serve]. destruct Hclosed as (n & ->).
    destruct (serve fuel others). reflexivity.
  - intros others. cbn [serve]. destruct Hfailed as (n & ->). reflexivity.
  - intros c k n e' H. apply read_fatal in H. exact H.
Qed.

Lemma eof_returns_other_errors_are_fatal_witness :
  let p := binary.PutUint64 2 in
  let payload := [Byte.x01; Byte.x02; Byte.x03] in
  let e := ErrOther "connection reset by peer" in
  let closed := {| pending := p ++ payload; tail := Some EOF |} in
  let failed := {| pending := p ++ payload; tail := Some e |} in
  (exists n, fst (read closed 4) = Returned n) /\
  (forall others,
     serve 4 (GoRead closed :: others) =
     (fst (serve 4 others), closed :: snd (serve 4 others))) /\
  (exists n, fst (read failed 4) = Fatal n e) /\
  (forall others, serve 4 (GoRead failed :: others) = (Some 1, [failed])) /\
  (forall c k n e', fst (read c k) = Fatal n e' -> tail c = Some e' /\ is_EOF e' = false).
Proof.
  apply (eof_returns_other_errors_are_fatal
           (binary.PutUint64 2) [Byte.x01; Byte.x02; Byte.x03]
           (ErrOther "connection reset by peer") 4).
  - reflexivity.
  - vm_compute. reflexivity.
  - cbn [length]. lia.
  - reflexivity.
Defined.

End ReadErrors.

Section Accumulation.

(** C9, the claim as stated fails: the prefix declares 4 bytes and the
    peer closes after 2.  The loop ends at [io.EOF] with the two bytes in
    the buffer, and no count was printed: the printed counts sum to 0. *)
Lemma final_short_read_is_not_reported :
  let r := read (NewReader (binary.PutUint64 4 ++ [Byte.x01; Byte.x02])) 3 in
  fst r = Returned 2 /\
  reported (out (snd r)) = [] /\
  sum (reported (out (snd r))) = 0 /\
  length (buf (snd r)) = 2%nat.
Proof.
  repeat split.
Qed.

(** C9, amended: every count the loop prints is the number of bytes its
    iteration added to the buffer, and at every point of a run the number
    of bytes in the buffer is the sum of the printed counts plus the
    number of bytes obtained by the last [CopyN] when that one did not
    complete (it met the end of the stream, an error, or a silent peer),
    which is never printed.  So the printed counts sum to the number of
    bytes in the buffer exactly when that last call obtained nothing. *)
Theorem reported_counts_and_buffer (c : Reader) (fuel : nat) :
  counted 0 (out (snd (read c fuel))) /\
  Z.of_nat (length (buf (snd (read c fuel)))) =
    sum (reported (out (snd (read c fuel)))) + unreported (fst (read c fuel)) /\
  (sum (reported (out (snd (read c fuel)))) = Z.of_nat (length (buf (snd (read c fuel))))
   <-> unreported (fst (read c fuel)) = 0).
Proof.
  assert (H : counted 0 (out (snd (read c fuel))) /\
              Z.of_nat (length (buf (snd (read c fuel)))) =
              sum (reported (out (snd (read c fuel)))) + unreported (fst (read c fuel))).
  { unfold read. destruct (b_ret (binary_Read c 0)).
    - destruct (read_loop_counts fuel
                  {| size := b_data (binary_Read c 0); buf := [];
                     conn := b_src (binary_Read c 0); out := [] |})
        as (delta & Ho & Hc & Hl).
      cbn [out buf app length] in Ho, Hc, Hl. rewrite Ho, Hl.
      split; [exact Hc|]. lia.
    - cbn. split; [exact I|reflexivity]. }
  destruct H as [Hc Hl]. split; [exact Hc|]. split; [exact Hl|]. lia.
Qed.

(** C10: the buffer of [read] starts empty and only grows: with more
    iterations its contents are the earlier contents with bytes appended.
    At every point it holds, in order, exactly the payload bytes taken from
    the connection so far (buffer and unread rest together are the stream
    after the prefix), and what iteration [i + 1] prints is the whole
    buffer as it stands after that iteration, hence everything received
    in the iterations up to it. *)
Theorem buffer_is_append_only (c : Reader) (fuel : nat) :
  buf (snd (read c 0)) = [] /\
  buf (snd (read c fuel)) ++ pending (conn (snd (read c fuel))) = skipn 8 (pending c) /\
  (forall k, (k <= fuel)%nat ->
     exists more, buf (snd (read c fuel)) = buf (snd (read c k)) ++ more) /\
  (forall i snap,
     nth_error (surfaced (out (snd (read c fuel)))) i = Some snap ->
     snap = buf (snd (read c (S i))) /\
     exists more, buf (snd (read c fuel)) = snap ++ more).
Proof.
  assert (Hmono : forall k, (k <= fuel)%nat ->
            exists more, buf (snd (read c fuel)) = buf (snd (read c k)) ++ more).
  { intros k Hk. unfold read. destruct (b_ret (binary_Read c 0)).
    - replace fuel with (k + (fuel - k))%nat by lia.
      rewrite read_loop_add.
      destruct (read_loop k _) as [[| | |] st1]; cbn [snd].
      + destruct (read_loop_moves (fuel - k) st1) as (_ & _ & more & Hb & _).
        exists more. exact Hb.
      + exists []. apply eq_sym, app_nil_r.
      + exists []. apply eq_sym, app_nil_r.
      + exists []. apply eq_sym, app_nil_r.
    - exists []. reflexivity. }
  assert (Hsnap : forall i snap,
            nth_error (surfaced (out (snd (read c fuel)))) i = Some snap ->
            snap = buf (snd (read c (S i)))).
  { intros i snap. unfold read. destruct (b_ret (binary_Read c 0)).
    - intros H. eapply read_loop_surfaced. cbn [out surfaced length Nat.add]. exact H.
    - cbn [snd out surfaced]. destruct i; discriminate. }
  split; [|split; [|split]].
  - unfold read. destruct (b_ret (binary_Read c 0)); reflexivity.
  - rewrite <- read_payload. unfold read.
    destruct (b_ret (binary_Read c 0)); [|reflexivity].
    destruct (read_loop_moves fuel
                {| size := b_data (binary_Read c 0); buf := [];
                   conn := b_src (binary_Read c 0); out := [] |})
      as (_ & _ & more & Hb & Hp).
    cbn [buf conn app] in Hb, Hp. rewrite Hb, Hp. reflexivity.
  - exact Hmono.
  - intros i snap H. split; [apply Hsnap, H|].
    rewrite (Hsnap i snap H).
    apply Hmono.
    apply nth_error_in_range in H.
    assert (Hlen : (length (surfaced (out (snd (read c fuel)))) <= fuel)%nat).
    { apply surfaced_bounded. }
    lia.
Qed.

End Accumulation.

(* ===================================================================== *)
(** * Further properties of the program *)

Section MoreReceiving.

(** The counts printed by a loop that stops: one full [size] per
    complete chunk of the stream. *)
Lemma read_loop_reports (fuel : nat) (st : rstate) :
  0 < size st ->
  (length (pending (conn st)) < fuel)%nat ->
  reported (out (snd (read_loop fuel st))) =
  reported (out st) ++
  repeat (size st) (Z.to_nat (Z.of_nat (length (pending (conn st))) / size st)).
Proof.
  revert st. induction fuel as [|fuel IH]; intros st Hsz Hfuel; [lia|].
  rewrite read_loop_S.
  destruct (Z.leb_spec (size st) (Z.of_nat (length (pending (conn st))))) as [Hle|Hgt].
  - assert (Hlen : length (pending (conn (iterate st))) =
                   (length (pending (conn st)) - Z.to_nat (size st))%nat)
      by (cbn [iterate conn advance pending]; apply length_skipn).
    rewrite IH by (cbn [iterate size]; lia).
    rewrite Hlen. cbn [iterate size out].
    rewrite reported_app, <- app_assoc. cbn [reported app]. f_equal.
    rewrite Z.max_r by lia.
    replace (Z.of_nat (length (pending (conn st)) - Z.to_nat (size st)))
      with (Z.of_nat (length (pending (conn st))) + (-1) * size st) by lia.
    rewrite Z.div_add by lia.
    assert (Hq : 1 <= Z.of_nat (length (pending (conn st))) / size st)
      by (apply Z.div_le_lower_bound; lia).
    replace (Z.to_nat (Z.of_nat (length (pending (conn st))) / size st))
      with (S (Z.to_nat (Z.of_nat (length (pending (conn st))) / size st + -1))) by lia.
    reflexivity.
  - cbn [snd drain out]. rewrite Z.div_small by lia.
    cbn [Z.to_nat repeat]. rewrite app_nil_r. reflexivity.
Qed.


(** A prefix whose value as an [int64] is zero or negative (any prefix
    with the top bit set, or eight zero bytes): [read] never looks at the
    connection again and never returns.  For every number of iterations
    the loop is still running, the bytes after the prefix are unread, the
    buffer is empty, and every iteration has printed the empty buffer and
    a count of 0. *)
Theorem nonpositive_size_spins
  (p rest : list byte) (tl : option error) (fuel : nat) :
  length p = 8%nat ->
  to_int64 (binary.Uint64 p) <= 0 ->
  read {| pending := p ++ rest; tail := tl |} fuel =
  (Running,
   {| size := to_int64 (binary.Uint64 p); buf := [];
      conn := {| pending := rest; tail := tl |};
      out := idle [] fuel |}).
Proof.
  intros Hp Hsz. rewrite read_prefix by exact Hp.
  rewrite read_loop_nonpos by exact Hsz. reflexivity.
Qed.

Lemma nonpositive_size_spins_witness :
  read {| pending := repeat Byte.xff 8 ++ [Byte.x41; Byte.x42]; tail := Some EOF |} 3 =
  (Running,
   {| size := to_int64 (binary.Uint64 (repeat Byte.xff 8)); buf := [];
      conn := {| pending := [Byte.x41; Byte.x42]; tail := Some EOF |};
      out := idle [] 3 |}).
Proof.
  apply (nonpositive_size_spins (repeat Byte.xff 8) [Byte.x41; Byte.x42] (Some EOF) 3).
  - reflexivity.
  - vm_compute. discriminate.
Defined.

(** The receiver does not stop after one frame: with a positive declared
    size it drains the stream in chunks of that size until the peer
    closes.  Whatever follows the prefix ends up in the buffer, in order
    and complete; "Received size bytes" is printed once per full chunk,
    that is [len / size] times; and [read] returns with the length of the
    incomplete last chunk, [len mod size], as the count of its last
    [CopyN]. *)
Theorem read_drains_stream_in_chunks (p rest : list byte) (fuel : nat) :
  length p = 8%nat ->
  0 < to_int64 (binary.Uint64 p) ->
  (length rest < fuel)%nat ->
  let sz := to_int64 (binary.Uint64 p) in
  let len := Z.of_nat (length rest) in
  let r := read {| pending := p ++ rest; tail := Some EOF |} fuel in
  fst r = Returned (len mod sz) /\
  buf (snd r) = rest /\
  pending (conn (snd r)) = [] /\
  reported (out (snd r)) = repeat sz (Z.to_nat (len / sz)).
Proof.
  intros Hp Hsz Hfuel sz len r. subst r. rewrite read_prefix by exact Hp.
  set (st := {| size := to_int64 (binary.Uint64 p); buf := [];
                conn := {| pending := rest; tail := Some EOF |}; out := [] |}).
  destruct (read_loop_stops fuel st) as (Hs & Hb & Hc); [exact Hsz|exact Hfuel|].
  rewrite Hs, Hb, Hc, read_loop_reports by assumption.
  repeat split.
Qed.

Lemma read_drains_stream_in_chunks_witness :
  let p := binary.PutUint64 2 in
  let rest := [Byte.x01; Byte.x02; Byte.x03; Byte.x04; Byte.x05] in
  let sz := to_int64 (binary.Uint64 p) in
  let len := Z.of_nat (length rest) in
  let r := read {| pending := p ++ rest; tail := Some EOF |} 6 in
  fst r = Returned (len mod sz) /\
  buf (snd r) = rest /\
  pending (conn (snd r)) = [] /\
  reported (out (snd r)) = repeat sz (Z.to_nat (len / sz)).
Proof.
  apply (read_drains_stream_in_chunks (binary.PutUint64 2)
           [Byte.x01; Byte.x02; Byte.x03; Byte.x04; Byte.x05] 6).
  - reflexivity.
  - vm_compute. reflexivity.
  - cbn [length]. lia.
Defined.

End MoreReceiving.

Section MoreSending.

Lemma binary_Write_wire (w : Wire) (v : Z) :
  binary_Write w v =
  ({| sent := sent w ++ taken (room w) (binary.PutUint64 (to_uint64 v));
      room := room_after (room w) 8;
      broken := broken w |},
   if fits (room w) (binary.PutUint64 (to_uint64 v)) then None else Some (broken w)).
Proof.
  unfold binary_Write. cbn [write Wire_Writer]. rewrite wire_write_spec. reflexivity.
Qed.

(** The whole of [send], once the random bytes are there and the
    connection is dialled: what is on the wire, what is returned and what
    is printed. *)
Lemma send_on_wire (rnd : Reader) (w0 : Wire) (sz : Z) :
  0 <= sz < 2 ^ 63 ->
  sz <= Z.of_nat (length (pending rnd)) ->
  let file := firstn (Z.to_nat sz) (pending rnd) in
  let ok := fits (room_after (room w0) 8) file in
  send rnd (inl w0) sz =
  {| s_result := SendReturns (if ok then None else Some (broken w0));
     s_file := file;
     s_wire := Some {| sent := sent w0 ++ taken (room w0) (binary.PutUint64 sz ++ file);
                       room := room_after (room_after (room w0) 8) (length file);
                       broken := broken w0 |};
     s_out := if ok then [PrintSent sz] else [] |}.
Proof.
  intros Hsz Hrnd file ok. subst ok.
  rewrite send_dialled by assumption. fold file.
  rewrite binary_Write_wire. cbn [fst]. rewrite wire_write_spec. cbn [fst sent room broken].
  unfold to_uint64. rewrite Z.mod_small by lia.
  rewrite <- app_assoc, <- (PutUint64_length sz), taken_app. reflexivity.
Qed.

(** [send] returns [nil] exactly when its size is not negative, the
    random source had that many bytes, the dial succeeded and the
    connection took the whole payload after the prefix.  It prints "Sent
    size bytes" in that case and nothing in any other; and when it
    returns [nil] the connection has taken, after whatever it took of the
    prefix, every byte of the file. *)
Theorem send_returns_nil_iff (rnd : Reader) (dial : Wire + error) (sz : Z) :
  sz < 2 ^ 63 ->
  let st := send rnd dial sz in
  let file := firstn (Z.to_nat sz) (pending rnd) in
  (s_result st = SendReturns None <->
   0 <= sz /\ sz <= Z.of_nat (length (pending rnd)) /\
   exists w0, dial = inl w0 /\ fits (room_after (room w0) 8) file = true) /\
  (s_result st = SendReturns None ->
   s_out st = [PrintSent sz] /\
   exists w0 w, dial = inl w0 /\ s_wire st = Some w /\
     sent w = sent w0 ++ taken (room w0) (binary.PutUint64 sz) ++ file) /\
  (s_result st <> SendReturns None -> s_out st = []).
Proof.
  intros Hmax st file.
  destruct (Z.ltb_spec sz 0) as [Hneg|Hpos].
  { assert (Hst : st = {| s_result := SendPanics; s_file := []; s_wire := None; s_out := [] |}).
    { subst st. unfold send.
      replace (sz <? 0) with true by (symmetry; apply Z.ltb_lt; exact Hneg). reflexivity. }
    rewrite Hst. cbn [s_result s_out]. split; [|split]; [split|..]; try discriminate.
    - intros (H & _). lia.
    - reflexivity. }
  destruct (Z.leb_spec sz (Z.of_nat (length (pending rnd)))) as [Hrnd|Hshort].
  2: { assert (Hst : s_result st <> SendReturns None /\ s_out st = []).
       { subst st. unfold send, io.ReadFull.
         replace (sz <? 0) with false by (symmetry; apply Z.ltb_ge; exact Hpos).
         replace (Z.to_nat sz <=? length (pending rnd))%nat with false
           by (symmetry; apply Nat.leb_gt; lia).
         cbn [io.f_ret io.f_bytes].
         destruct (tail rnd) as [e|]; [destruct (is_EOF e)|];
           cbn [s_result s_out]; split; (discriminate || reflexivity). }
       destruct Hst as [Hr Ho].
       split; [|split]; [split|..].
       - intros H. contradiction.
       - intros (_ & H & _). lia.
       - intros H. contradiction.
       - intros _. exact Ho. }
  destruct dial as [w0|e].
  2: { assert (Hst : st = {| s_result := SendReturns (Some e); s_file := file;
                             s_wire := None; s_out := [] |}).
       { subst st. unfold send, io.ReadFull.
         replace (sz <? 0) with false by (symmetry; apply Z.ltb_ge; exact Hpos).
         replace (Z.to_nat sz <=? length (pending rnd))%nat with true
           by (symmetry; apply Nat.leb_le; lia).
         reflexivity. }
       rewrite Hst. cbn [s_result s_out]. split; [|split]; [split|..]; try discriminate.
       - intros (_ & _ & w0 & H & _). discriminate H.
       - reflexivity. }
  subst st. rewrite send_on_wire by lia. fold file.
  cbn [s_result s_out s_wire].
  destruct (fits (room_after (room w0) 8) file) eqn:Hfit.
  - split; [|split]; [split|..].
    + intros _. split; [lia|]. split; [lia|]. exists w0. split; [reflexivity|exact Hfit].
    + reflexivity.
    + intros _. split; [reflexivity|]. exists w0. eexists.
      split; [reflexivity|]. split; [reflexivity|]. cbn [sent].
      rewrite <- (PutUint64_length sz) in Hfit.
      rewrite <- taken_app, (fits_taken _ _ Hfit). reflexivity.
    + intros H. contradiction.
  - split; [|split]; [split|..]; try discriminate.
    + intros (_ & _ & w & Hw & Hf). injection Hw as <-. congruence.
    + reflexivity.
Qed.

Lemma send_returns_nil_iff_witness :
  let rnd := NewReader [Byte.x0a; Byte.x0b; Byte.x0c] in
  let dial : Wire + error :=
    inl {| sent := []; room := Some 10%nat; broken := ErrOther "broken pipe" |} in
  let st := send rnd dial 2 in
  let file := firstn (Z.to_nat 2) (pending rnd) in
  (s_result st = SendReturns None <->
   0 <= 2 /\ 2 <= Z.of_nat (length (pending rnd)) /\
   exists w0, dial = inl w0 /\ fits (room_after (room w0) 8) file = true) /\
  (s_result st = SendReturns None ->
   s_out st = [PrintSent 2] /\
   exists w0 w, dial = inl w0 /\ s_wire st = Some w /\
     sent w = sent w0 ++ taken (room w0) (binary.PutUint64 2) ++ file) /\
  (s_result st <> SendReturns None -> s_out st = []).
Proof.
  apply (send_returns_nil_iff (NewReader [Byte.x0a; Byte.x0b; Byte.x0c])
           (inl {| sent := []; room := Some 10%nat; broken := ErrOther "broken pipe" |}) 2).
  lia.
Defined.

(** The error of [binary.Write] is dropped (main.go:116).  On a
    connection that breaks before the eight bytes of the prefix are out,
    a [send] of a payload that is not empty still fails, because the
    payload write fails too; but [send(0)] writes no payload, so it
    returns [nil] and prints "Sent 0 bytes" with an incomplete prefix on
    the wire. *)
Theorem prefix_write_error_is_dropped (rnd : Reader) (e : error) (k : nat) (sz : Z) :
  0 <= sz < 2 ^ 63 ->
  sz <= Z.of_nat (length (pending rnd)) ->
  (k < 8)%nat ->
  let st := send rnd (inl {| sent := []; room := Some k; broken := e |}) sz in
  snd (binary_Write {| sent := []; room := Some k; broken := e |} sz) = Some e /\
  (exists w, s_wire st = Some w /\ sent w = firstn k (binary.PutUint64 sz) /\
             (length (sent w) < 8)%nat) /\
  s_result st = SendReturns (if sz =? 0 then None else Some e) /\
  s_out st = (if sz =? 0 then [PrintSent 0] else []).
Proof.
  intros Hsz Hrnd Hk st. subst st.
  rewrite send_on_wire by assumption.
  rewrite binary_Write_wire.
  cbn [snd fst sent room broken fits taken room_after option_map s_wire s_result s_out app].
  unfold to_uint64. rewrite Z.mod_small by lia. rewrite PutUint64_length.
  replace (8 <=? k)%nat with false by (symmetry; apply Nat.leb_gt; exact Hk).
  replace (k - 8)%nat with 0%nat by lia.
  assert (Hlen : length (firstn (Z.to_nat sz) (pending rnd)) = Z.to_nat sz)
    by (rewrite length_firstn; lia).
  rewrite Hlen.
  split; [reflexivity|]. split.
  - eexists. split; [reflexivity|]. cbn [sent].
    rewrite firstn_app, PutUint64_length.
    replace (k - 8)%nat with 0%nat by lia. rewrite firstn_O, app_nil_r.
    split; [reflexivity|]. rewrite length_firstn, PutUint64_length. lia.
  - destruct (Z.eqb_spec sz 0) as [->|Hne].
    + split; reflexivity.
    + replace (Z.to_nat sz <=? 0)%nat with false by (symmetry; apply Nat.leb_gt; lia).
      split; reflexivity.
Qed.

Lemma prefix_write_error_is_dropped_witness :
  let rnd := NewReader [] in
  let e := ErrOther "broken pipe" in
  let st := send rnd (inl {| sent := []; room := Some 5%nat; broken := e |}) 0 in
  snd (binary_Write {| sent := []; room := Some 5%nat; broken := e |} 0) = Some e /\
  (exists w, s_wire st = Some w /\ sent w = firstn 5 (binary.PutUint64 0) /\
             (length (sent w) < 8)%nat) /\
  s_result st = SendReturns (if 0 =? 0 then None else Some e) /\
  s_out st = (if 0 =? 0 then [PrintSent 0] else []).
Proof.
  apply (prefix_write_error_is_dropped (NewReader []) (ErrOther "broken pipe") 5 0).
  - lia.
  - cbn [NewReader pending length]. lia.
  - lia.
Defined.

End MoreSending.

Section BothEnds.



(** A transfer cut short is noticed at both ends.  When the connection
    breaks after the prefix and [j] of the [size] payload bytes
    ([j < size]), [send] returns the write error and prints nothing; the
    receiver, once the broken connection is closed, decodes the declared
    size, gets exactly those [j] bytes, leaves its loop at [io.EOF] in the
    first iteration and prints nothing either. *)
Theorem transfer_cut_short
  (rnd : Reader) (e : error) (j : nat) (sz : Z) (fuel : nat) :
  0 <= sz < 2 ^ 63 ->
  sz <= Z.of_nat (length (pending rnd)) ->
  Z.of_nat j < sz ->
  (1 <= fuel)%nat ->
  let st := send rnd (inl {| sent := []; room := Some (8 + j)%nat; broken := e |}) sz in
  s_result st = SendReturns (Some e) /\
  s_out st = [] /\
  exists w,
    s_wire st = Some w /\
    sent w = binary.PutUint64 sz ++ firstn j (s_file st) /\
    read (delivered w) fuel =
    (Returned (Z.of_nat j),
     {| size := sz; buf := firstn j (s_file st); conn := NewReader []; out := [] |}).
Proof.
  intros Hsz Hrnd Hj Hfuel st. subst st.
  rewrite send_on_wire by lia.
  set (file := firstn (Z.to_nat sz) (pending rnd)).
  assert (Hlen : length file = Z.to_nat sz).
  { subst file. rewrite length_firstn. lia. }
  cbn [s_result s_file s_wire s_out fits room_after option_map room sent taken broken app].
  replace (8 + j - 8)%nat with j by lia.
  replace (length file <=? j)%nat with false by (symmetry; apply Nat.leb_gt; lia).
  split; [reflexivity|]. split; [reflexivity|].
  eexists. split; [reflexivity|]. cbn [sent].
  assert (Hsent : firstn (8 + j) (binary.PutUint64 sz ++ file) =
                  binary.PutUint64 sz ++ firstn j file).
  { rewrite firstn_app, PutUint64_length.
    replace (8 + j - 8)%nat with j by lia.
    rewrite firstn_all2 by (rewrite PutUint64_length; lia). reflexivity. }
  rewrite Hsent. split; [reflexivity|].
  unfold delivered, NewReader. cbn [sent].
  assert (Hdec : to_int64 (binary.Uint64 (binary.PutUint64 sz)) = sz).
  { rewrite Uint64_PutUint64, to_int64_small by lia. reflexivity. }
  assert (Hj' : length (firstn j file) = j) by (rewrite length_firstn; lia).
  rewrite (read_short_frame (binary.PutUint64 sz) (firstn j file) fuel).
  - rewrite Hdec, Hj'. reflexivity.
  - reflexivity.
  - rewrite Hdec, Hj'. exact Hj.
  - exact Hfuel.
Qed.

Lemma transfer_cut_short_witness :
  let rnd := NewReader [Byte.x01; Byte.x02; Byte.x03; Byte.x04] in
  let e := ErrOther "broken pipe" in
  let st := send rnd (inl {| sent := []; room := Some (8 + 1)%nat; broken := e |}) 4 in
  s_result st = SendReturns (Some e) /\
  s_out st = [] /\
  exists w,
    s_wire st = Some w /\
    sent w = binary.PutUint64 4 ++ firstn 1 (s_file st) /\
    read (delivered w) 1 =
    (Returned (Z.of_nat 1),
     {| size := 4; buf := firstn 1 (s_file st); conn := NewReader []; out := [] |}).
Proof.
  apply (transfer_cut_short (NewReader [Byte.x01; Byte.x02; Byte.x03; Byte.x04])
           (ErrOther "broken pipe") 1 4 1).
  - lia.
  - cbn [NewReader pending length]. lia.
  - lia.
  - lia.
Defined.

End BothEnds.

Section Process.

Lemma handlers_accept_loop (accepts : list accepted) :
  handlers (accept_loop accepts) = connections accepts.
Proof.
  induction accepts as [|x accepts IH]; [reflexivity|].
  destruct x; cbn [accept_loop handlers connections]; rewrite IH; reflexivity.
Qed.

Lemma accept_loop_length (accepts : list accepted) :
  length (accept_loop accepts) = length accepts.
Proof.
  induction accepts as [|x accepts IH]; [reflexivity|].
  destruct x; cbn [accept_loop length]; rewrite IH; reflexivity.
Qed.

(** The process exits only through a handler in [log.Fatal]. *)
Lemma serve_exit (fuel : nat) (acts : list action) (code : Z) :
  fst (serve fuel acts) = Some code ->
  code = 1 /\
  exists c n e, In c (handlers acts) /\ fst (read c fuel) = Fatal n e.
Proof.
  induction acts as [|a acts IH]; [discriminate|].
  destruct a as [o|c]; cbn [serve handlers].
  - exact IH.
  - destruct (fst (read c fuel)) eqn:Hc.
    1-3: destruct (serve fuel acts) as [code' served]; cbn [fst] in *;
         intros H; destruct (IH H) as (H1 & c' & n & e & Hin & Hf);
         split; [exact H1|]; exists c', n, e; split; [right; exact Hin|exact Hf].
    intros H. injection H as <-. split; [reflexivity|].
    exists c, reqLen, e. split; [left; reflexivity|exact Hc].
Qed.

(** While no handler is in [log.Fatal], every handler is started. *)
Lemma serve_all (fuel : nat) (acts : list action) :
  fst (serve fuel acts) = None -> snd (serve fuel acts) = handlers acts.
Proof.
  induction acts as [|a acts IH]; [reflexivity|].
  destruct a as [o|c]; cbn [serve handlers].
  - exact IH.
  - destruct (fst (read c fuel)).
    1-3: destruct (serve fuel acts) as [code served]; cbn [fst snd] in *;
         intros H; rewrite (IH H); reflexivity.
    discriminate.
Qed.

(** A process that has listened exits only over a connection whose
    stream ended with an error other than [io.EOF]. *)
Lemma main_exit_safe (accepts : list accepted) (fuel : nat) (code : Z) :
  main None accepts fuel = Some code ->
  exists c e, In c (connections accepts) /\ tail c = Some e /\ is_EOF e = false.
Proof.
  unfold main, start. intros H.
  apply serve_exit in H. destruct H as (_ & c & n & e & Hin & Hf).
  rewrite handlers_accept_loop in Hin. apply read_fatal in Hf.
  exists c, e. split; [exact Hin|exact Hf].
Qed.

(** The accept loop starts exactly one handler for every connection it
    accepts, in the order of acceptance, whatever accept errors come in
    between: none is dropped, repeated or reordered, and every outcome of
    [Accept] is answered by exactly one action (a handler or a printed
    error). *)
Theorem one_handler_per_connection (accepts : list accepted) :
  handlers (snd (start None accepts)) = connections accepts /\
  length (snd (start None accepts)) = length accepts.
Proof.
  cbn [start snd]. split.
  - apply handlers_accept_loop.
  - apply accept_loop_length.
Qed.

(** When the process exits, its status is 1 and the cause is one of two:
    [net.Listen] failed, or the stream of an accepted connection ended
    with an error other than [io.EOF].  Accept errors never end the
    process. *)
Theorem main_exit_cause
  (listen : option error) (accepts : list accepted) (fuel : nat) (code : Z) :
  main listen accepts fuel = Some code ->
  code = 1 /\
  (listen <> None \/
   exists c e, In c (connections accepts) /\ tail c = Some e /\ is_EOF e = false).
Proof.
  unfold main, start. destruct listen as [err|].
  - intros H. injection H as <-. split; [reflexivity|]. left. discriminate.
  - intros H. apply serve_exit in H. destruct H as (H1 & c & n & e & Hin & Hf).
    split; [exact H1|]. right.
    rewrite handlers_accept_loop in Hin. apply read_fatal in Hf.
    exists c, e. split; [exact Hin|exact Hf].
Qed.

Lemma main_exit_cause_witness :
  1 = 1 /\
  (@None error <> None \/
   exists c e,
     In c (connections
             [AcceptErr (ErrOther "too many open files");
              AcceptConn {| pending := binary.PutUint64 4 ++ [Byte.x01];
                            tail := Some (ErrOther "connection reset by peer") |}]) /\
     tail c = Some e /\ is_EOF e = false).
Proof.
  apply (main_exit_cause None
           [AcceptErr (ErrOther "too many open files");
            AcceptConn {| pending := binary.PutUint64 4 ++ [Byte.x01];
                          tail := Some (ErrOther "connection reset by peer") |}]
           2 1).
  reflexivity.
Defined.

(** Peers that close their connection or keep it open, whatever they
    send (nothing, a truncated prefix, less or more than they declare, a
    negative size), never bring the server down: once it listens, the
    process does not exit, and every accepted connection gets its
    handler. *)
Theorem server_survives_clean_peers (accepts : list accepted) (fuel : nat) :
  (forall c, In c (connections accepts) -> tail c = None \/ tail c = Some EOF) ->
  main None accepts fuel = None /\
  snd (serve fuel (snd (start None accepts))) = connections accepts.
Proof.
  intros Hclean.
  assert (Hrun : main None accepts fuel = None).
  { destruct (main None accepts fuel) as [code|] eqn:Hm; [|reflexivity].
    apply main_exit_safe in Hm. destruct Hm as (c & e & Hin & Ht & He).
    destruct (Hclean c Hin) as [H|H]; rewrite H in Ht.
    - discriminate.
    - injection Ht as <-. discriminate. }
  split; [exact Hrun|].
  unfold main, start in Hrun. cbn [start snd].
  rewrite serve_all by exact Hrun. apply handlers_accept_loop.
Qed.

Lemma server_survives_clean_peers_witness :
  main None
    [AcceptConn (NewReader [Byte.x01; Byte.x02]);
     AcceptErr (ErrOther "too many open files");
     AcceptConn {| pending := repeat Byte.xff 8; tail := None |}] 4 = None /\
  snd (serve 4 (snd (start None
    [AcceptConn (NewReader [Byte.x01; Byte.x02]);
     AcceptErr (ErrOther "too many open files");
     AcceptConn {| pending := repeat Byte.xff 8; tail := None |}]))) =
  connections
    [AcceptConn (NewReader [Byte.x01; Byte.x02]);
     AcceptErr (ErrOther "too many open files");
     AcceptConn {| pending := repeat Byte.xff 8; tail := None |}].
Proof.
  apply (server_survives_clean_peers
           [AcceptConn (NewReader [Byte.x01; Byte.x02]);
            AcceptErr (ErrOther "too many open files");
            AcceptConn {| pending := repeat Byte.xff 8; tail := None |}] 4).
  intros c [<-|[<-|[]]]; [right|left]; reflexivity.
Defined.

End Process.

Section Segments.

(** The loop over single [Read] calls gets the same bytes as one look at
    the whole stream, however the stream is cut and whatever lengths are
    asked for, as long as each call asks for at least one byte and no
    more than are wanted. *)
Lemma pull_flat (ask : nat -> nat -> nat) :
  (forall want got, (0 < want)%nat -> (0 < ask want got <= want)%nat) ->
  forall (fuel : nat) (c : Segmented.Conn) (want : nat) (acc : list byte),
  (Segmented.budget c <= fuel)%nat ->
  fst (fst (Segmented.pull fuel ask c want acc)) = acc ++ firstn want (concat (Segmented.segments c)) /\
  Segmented.flatten (snd (fst (Segmented.pull fuel ask c want acc))) = advance (Segmented.flatten c) want /\
  snd (Segmented.pull fuel ask c want acc) =
    if (want <=? length (concat (Segmented.segments c)))%nat then Some None
    else option_map Some (Segmented.ending c).
Proof.
  intros Hask. induction fuel as [|fuel IH]; intros c want acc Hfuel.
  { unfold Segmented.budget in Hfuel. lia. }
  cbn [Segmented.pull]. destruct want as [|want'].
  { cbn [fst snd firstn Nat.leb]. rewrite app_nil_r, advance_0. repeat split. }
  set (want := S want') in *.
  assert (Hwant : (0 < want)%nat) by (subst want; lia).
  pose proof (Hask want (length acc) Hwant) as Hk.
  set (k := ask want (length acc)) in *.
  unfold Segmented.conn_Read. destruct c as [segs tl]. cbn [Segmented.segments Segmented.ending].
  destruct segs as [|s rest].
  - cbn [concat length firstn]. rewrite firstn_nil, app_nil_r.
    replace (want <=? 0)%nat with false by (symmetry; apply Nat.leb_gt; lia).
    unfold Segmented.flatten, advance. cbn [Segmented.segments Segmented.ending pending tail concat].
    rewrite skipn_nil.
    destruct tl as [e|]; cbn [fst snd option_map]; repeat split.
  - unfold Segmented.budget in Hfuel. cbn [Segmented.segments concat length] in Hfuel.
    rewrite length_app in Hfuel.
    destruct (Nat.leb_spec (length s) k) as [Hle|Hgt].
    + destruct (IH {| Segmented.segments := rest; Segmented.ending := tl |} (want - length s)%nat (acc ++ s))
        as (Hb & Hc & Hr).
      { unfold Segmented.budget. cbn [Segmented.segments]. lia. }
      rewrite Hb, Hc, Hr. cbn [Segmented.segments Segmented.ending concat].
      split; [|split].
      * rewrite <- app_assoc. f_equal.
        rewrite firstn_app, (firstn_all2 s) by lia. reflexivity.
      * unfold Segmented.flatten, advance. cbn [Segmented.segments Segmented.ending pending tail concat].
        f_equal. rewrite skipn_app, (skipn_all2 s) by lia. reflexivity.
      * rewrite length_app.
        destruct (Nat.leb_spec (want - length s) (length (concat rest)));
          destruct (Nat.leb_spec want (length s + length (concat rest)));
          try reflexivity; lia.
    + assert (Hfk : length (firstn k s) = k) by (rewrite length_firstn; lia).
      rewrite Hfk.
      destruct (IH {| Segmented.segments := skipn k s :: rest; Segmented.ending := tl |}
                   (want - k)%nat (acc ++ firstn k s))
        as (Hb & Hc & Hr).
      { unfold Segmented.budget. cbn [Segmented.segments concat length].
        rewrite length_app, length_skipn. lia. }
      rewrite Hb, Hc, Hr. cbn [Segmented.segments Segmented.ending concat].
      assert (Hsplit : s ++ concat rest = firstn k s ++ (skipn k s ++ concat rest)).
      { rewrite app_assoc, firstn_skipn. reflexivity. }
      split; [|split].
      * rewrite <- app_assoc. f_equal.
        rewrite Hsplit, (firstn_app want), Hfk, (firstn_all2 (firstn k s)) by lia.
        reflexivity.
      * unfold Segmented.flatten, advance. cbn [Segmented.segments Segmented.ending pending tail concat].
        f_equal. rewrite Hsplit.
        rewrite (skipn_app want), Hfk, (skipn_all2 (firstn k s)) by lia.
        reflexivity.
      * rewrite !length_app, length_skipn.
        destruct (Nat.leb_spec (want - k) (length s - k + length (concat rest)));
          destruct (Nat.leb_spec want (length s + length (concat rest)));
          try reflexivity; lia.
Qed.

(** [Segmented.ReadFull] over the segments is [io.ReadFull] on the whole
    stream. *)
Lemma ReadFull_flat (c : Segmented.Conn) (n : nat) :
  io.ReadFull (Segmented.flatten c) n =
  {| io.f_bytes := fst (fst (Segmented.ReadFull c n));
     io.f_src := Segmented.flatten (snd (fst (Segmented.ReadFull c n)));
     io.f_ret := snd (Segmented.ReadFull c n) |}.
Proof.
  unfold Segmented.ReadFull.
  destruct (pull_flat (fun want _ => want)) with (fuel := Segmented.budget c) (c := c)
    (want := n) (acc := @nil byte) as (Hb & Hc & Hr); [intros; lia|lia|].
  destruct (Segmented.pull (Segmented.budget c) (fun want _ => want) c n []) as [[bs c'] r].
  cbn [fst snd app] in *. subst bs r. rewrite Hc.
  unfold io.ReadFull. cbn [Segmented.flatten pending tail].
  destruct (Nat.leb_spec n (length (concat (Segmented.segments c)))) as [Hle|Hgt].
  - reflexivity.
  - rewrite firstn_all2 by lia.
    destruct (Segmented.ending c) as [e|]; cbn [option_map]; reflexivity.
Qed.

(** [Segmented.CopyN] over the segments into a growing buffer is [io.CopyN] on the
    whole stream. *)
Lemma CopyN_flat (slack : nat -> nat) (b : Buffer) (c : Segmented.Conn) (n : Z) :
  io.CopyN b (Segmented.flatten c) n =
  {| io.c_dst := fst (fst (Segmented.CopyN slack b c n));
     io.c_src := Segmented.flatten (snd (fst (Segmented.CopyN slack b c n)));
     io.c_ret := snd (Segmented.CopyN slack b c n) |}.
Proof.
  rewrite CopyN_Buffer. unfold Segmented.CopyN.
  destruct (Z.leb_spec n 0) as [Hn|Hn].
  - cbn [fst snd]. replace (Z.to_nat n) with 0%nat by lia.
    rewrite firstn_O, app_nil_r, advance_0.
    replace (n <=? Z.of_nat (length (pending (Segmented.flatten c)))) with true
      by (symmetry; apply Z.leb_le; lia).
    rewrite Z.max_l by lia. reflexivity.
  - set (ask := fun want got => Nat.min (Segmented.MinRead + slack (length b + got))%nat want).
    destruct (pull_flat ask) with (fuel := Segmented.budget c) (c := c)
      (want := Z.to_nat n) (acc := @nil byte) as (Hb & Hc & Hr).
    { intros want got Hw. subst ask. unfold Segmented.MinRead. cbn beta. lia. }
    { lia. }
    destruct (Segmented.pull (Segmented.budget c) ask c (Z.to_nat n) []) as [[bs c'] r].
    cbn [fst snd app] in *. subst bs r. rewrite Hc.
    cbn [Segmented.flatten pending tail]. f_equal.
    rewrite Z.max_r by lia.
    destruct (Z.leb_spec n (Z.of_nat (length (concat (Segmented.segments c))))) as [Hle|Hgt].
    + replace (Z.to_nat n <=? length (concat (Segmented.segments c)))%nat with true
        by (symmetry; apply Nat.leb_le; lia).
      rewrite length_firstn, Nat.min_l, Z2Nat.id, Z.eqb_refl by lia. reflexivity.
    + replace (Z.to_nat n <=? length (concat (Segmented.segments c)))%nat with false
        by (symmetry; apply Nat.leb_gt; lia).
      rewrite firstn_all2 by lia.
      destruct (Segmented.ending c) as [e|]; cbn [option_map]; [|reflexivity].
      replace (Z.of_nat (length (concat (Segmented.segments c))) =? n) with false
        by (symmetry; apply Z.eqb_neq; lia).
      replace (Z.of_nat (length (concat (Segmented.segments c))) <? n) with true
        by (symmetry; apply Z.ltb_lt; lia).
      destruct (is_EOF e) eqn:He; cbn [andb].
      * apply is_EOF_eq in He. subst e. reflexivity.
      * reflexivity.
Qed.

(** The loop of [read] over segments does what the loop over the whole
    stream does. *)
Lemma read_loop_flat (slack : nat -> nat) (fuel : nat) (st : Segmented.state) :
  read_loop fuel (Segmented.forget st) =
  (fst (Segmented.read_loop slack fuel st),
   Segmented.forget (snd (Segmented.read_loop slack fuel st))).
Proof.
  revert st. induction fuel as [|fuel IH]; intros st; [reflexivity|].
  destruct st as [sz b0 c0 o0].
  cbn [read_loop Segmented.read_loop Segmented.forget size buf conn out
       Segmented.g_size Segmented.g_buf Segmented.g_conn Segmented.g_out].
  rewrite (CopyN_flat slack).
  destruct (Segmented.CopyN slack b0 c0 sz) as [[b c] r].
  cbn [fst snd io.c_dst io.c_src io.c_ret].
  destruct r as [reqLen [err|]|got].
  - destruct (is_EOF err); reflexivity.
  - rewrite <- IH. reflexivity.
  - reflexivity.
Qed.

(** [read] over segments does what [read] over the whole stream does. *)
Lemma read_flat (slack : nat -> nat) (c : Segmented.Conn) (fuel : nat) :
  read (Segmented.flatten c) fuel =
  (fst (Segmented.read slack c fuel), Segmented.forget (snd (Segmented.read slack c fuel))).
Proof.
  unfold read, Segmented.read, binary_Read.
  rewrite ReadFull_flat.
  destruct (Segmented.ReadFull c 8) as [[bs c'] r].
  cbn [fst snd io.f_bytes io.f_src io.f_ret b_data b_src b_ret].
  destruct r as [[e|]|].
  - rewrite <- read_loop_flat. reflexivity.
  - rewrite <- read_loop_flat. reflexivity.
  - reflexivity.
Qed.

(** The way the network cuts the stream into segments, and the free space
    the buffer happens to have when it reads, make no difference to
    [read]: run over single [conn.Read] calls on a connection whose bytes
    arrive in any segments (empty ones included), it ends in the same
    way, with the same size, the same buffer, the same output and the
    same bytes left unread as [read] on the stream as a whole. *)
Theorem segmentation_is_invisible
  (slack : nat -> nat) (c : Segmented.Conn) (fuel : nat) :
  fst (Segmented.read slack c fuel) = fst (read (Segmented.flatten c) fuel) /\
  Segmented.forget (snd (Segmented.read slack c fuel)) =
    snd (read (Segmented.flatten c) fuel).
Proof.
  rewrite (read_flat slack). split; reflexivity.
Qed.

(** A frame delivered in arbitrarily small pieces is reassembled: however
    the prefix and a payload that is not empty are cut into segments, once
    the peer closes [read] returns with the declared size, with the whole
    payload in the buffer, in order, and having printed it and its length
    once. *)
Theorem segmented_frame_is_reassembled
  (slack : nat -> nat) (segs : list (list byte)) (payload : list byte) (fuel : nat) :
  concat segs = binary.PutUint64 (Z.of_nat (length payload)) ++ payload ->
  payload <> [] ->
  Z.of_nat (length payload) < 2 ^ 63 ->
  (2 <= fuel)%nat ->
  let r := Segmented.read slack {| Segmented.segments := segs;
                                   Segmented.ending := Some EOF |} fuel in
  fst r = Returned 0 /\
  Segmented.g_size (snd r) = Z.of_nat (length payload) /\
  Segmented.g_buf (snd r) = payload /\
  Segmented.g_out (snd r) = [PrintBytes payload; PrintReceived (Z.of_nat (length payload))] /\
  concat (Segmented.segments (Segmented.g_conn (snd r))) = [].
Proof.
  intros Hsegs Hne Hmax Hfuel r.
  pose proof (read_flat slack {| Segmented.segments := segs;
                                 Segmented.ending := Some EOF |} fuel) as H.
  fold r in H. unfold Segmented.flatten in H.
  cbn [Segmented.segments Segmented.ending] in H. rewrite Hsegs in H.
  rewrite read_whole_frame in H; try assumption.
  - apply (f_equal fst) in H as Hs. apply (f_equal snd) in H as Hst.
    cbn [fst snd] in Hs, Hst. rewrite <- Hs.
    apply (f_equal size) in Hst as Hsz. apply (f_equal buf) in Hst as Hb.
    apply (f_equal out) in Hst as Ho. apply (f_equal (fun x => pending (conn x))) in Hst as Hc.
    cbn [Segmented.forget size buf out conn Segmented.flatten pending] in Hsz, Hb, Ho, Hc.
    repeat split; congruence.
  - reflexivity.
  - rewrite Uint64_PutUint64, to_int64_small by lia. reflexivity.
Qed.

Lemma segmented_frame_is_reassembled_witness :
  let segs := [[Byte.x03]; []; [Byte.x00; Byte.x00; Byte.x00; Byte.x00];
               [Byte.x00; Byte.x00; Byte.x00; Byte.x61]; [Byte.x62]; [Byte.x63]] in
  let payload := [Byte.x61; Byte.x62; Byte.x63] in
  let r := Segmented.read (fun _ => 0%nat)
             {| Segmented.segments := segs; Segmented.ending := Some EOF |} 2 in
  fst r = Returned 0 /\
  Segmented.g_size (snd r) = Z.of_nat (length payload) /\
  Segmented.g_buf (snd r) = payload /\
  Segmented.g_out (snd r) = [PrintBytes payload; PrintReceived (Z.of_nat (length payload))] /\
  concat (Segmented.segments (Segmented.g_conn (snd r))) = [].
Proof.
  apply (segmented_frame_is_reassembled (fun _ => 0%nat)
           [[Byte.x03]; []; [Byte.x00; Byte.x00; Byte.x00; Byte.x00];
            [Byte.x00; Byte.x00; Byte.x00; Byte.x61]; [Byte.x62]; [Byte.x63]]
           [Byte.x61; Byte.x62; Byte.x63] 2).
  - reflexivity.
  - discriminate.
  - cbn [length Z.of_nat]. lia.
  - lia.
Defined.

End Segments.
